(** * knnlm-why: retrieval-augmented scoring

    A shallow embedding of [analysis/faiss_mask_flat_gpu.py] (the temperature
    sweep over a flat nearest-neighbour index) and of
    [fairseq/sequence_scorer.py] (the chunked scoring driver with retrieval
    fusion), and the properties of the specification checked against them.

    Numbers.  Tensors of floats are lists of [fval]: a real number or one of
    the IEEE special values +inf, -inf, NaN.  Operations on finite values are
    exact (rounding and signed zeros are not modelled); operations that
    involve or produce a special value follow IEEE-754, so that
    [log 0 = -inf], [log x = NaN] for [x < 0], [0 / 0 = NaN] and
    [inf - inf = NaN] are visible in the model.  The division of the
    float32 distances by the temperature in the sweep overflows to an
    infinity as in single precision ([fdiv32]); the other operations are
    not bounded.

    Outside the model: the alignment of the hypotheses, the
    half-precision casts, the saved datastore keys and queries, and the
    file names of the sweep.  The attention maps are modelled on their
    own, apart from the scores.  The index, the models and the datastore
    of the scorer are external and enter as functions. *)

From Stdlib Require Import Reals Lra Lia List ZArith Bool Arith.
From Stdlib Require String.
Import ListNotations.

(** ** Floats *)

Module Float.

Inductive fval : Type :=
| Fin (r : R)
| PInf
| NInf
| NaN.

Definition Rltb (a b : R) : bool := if Rlt_dec a b then true else false.
Definition Reqb (a b : R) : bool := if Req_dec_T a b then true else false.

Definition fneg (x : fval) : fval :=
  match x with
  | Fin r => Fin (- r)
  | PInf => NInf
  | NInf => PInf
  | NaN => NaN
  end.

Definition fadd (x y : fval) : fval :=
  match x, y with
  | NaN, _ | _, NaN => NaN
  | Fin a, Fin b => Fin (a + b)
  | PInf, NInf | NInf, PInf => NaN
  | PInf, _ | _, PInf => PInf
  | NInf, _ | _, NInf => NInf
  end.

Definition fsub (x y : fval) : fval := fadd x (fneg y).

(** The sign of a finite value: [Some true] positive, [Some false] negative,
    [None] zero. *)
Definition Rsign (r : R) : option bool :=
  if Rltb 0 r then Some true else if Rltb r 0 then Some false else None.

Definition inf_of_sign (positive : bool) : fval :=
  if positive then PInf else NInf.

Definition fmul (x y : fval) : fval :=
  match x, y with
  | NaN, _ | _, NaN => NaN
  | Fin a, Fin b => Fin (a * b)
  | Fin a, PInf | PInf, Fin a =>
      match Rsign a with Some s => inf_of_sign s | None => NaN end
  | Fin a, NInf | NInf, Fin a =>
      match Rsign a with Some s => inf_of_sign (negb s) | None => NaN end
  | PInf, PInf | NInf, NInf => PInf
  | PInf, NInf | NInf, PInf => NInf
  end.

Definition fdiv (x y : fval) : fval :=
  match x, y with
  | NaN, _ | _, NaN => NaN
  | Fin a, Fin b =>
      if Reqb b 0
      then match Rsign a with Some s => inf_of_sign s | None => NaN end
      else Fin (a / b)
  | Fin _, (PInf | NInf) => Fin 0
  | (PInf | NInf), (PInf | NInf) => NaN
  | PInf, Fin b => if Rltb b 0 then NInf else PInf
  | NInf, Fin b => if Rltb b 0 then PInf else NInf
  end.

(** Single precision.  [flt_max] is the largest finite float32 and
    [flt_overflow] the least magnitude that rounds to an infinity (round
    to nearest, ties to even).  [round32] applies that overflow to an
    exact result; the rounding of a value that stays finite is not
    modelled. *)
Definition flt_max_z : Z := Eval cbv in (2 ^ 128 - 2 ^ 104)%Z.
Definition flt_overflow_z : Z := Eval cbv in (2 ^ 128 - 2 ^ 103)%Z.
Definition flt_max : R := IZR flt_max_z.
Definition flt_overflow : R := IZR flt_overflow_z.

Definition round32 (x : fval) : fval :=
  match x with
  | Fin r =>
      if Rltb (Rabs r) flt_overflow then Fin r else inf_of_sign (Rltb 0 r)
  | other => other
  end.

(** Division of a float32 tensor by a scalar. *)
Definition fdiv32 (x y : fval) : fval := round32 (fdiv x y).

Definition fexp (x : fval) : fval :=
  match x with
  | Fin r => Fin (exp r)
  | PInf => PInf
  | NInf => Fin 0
  | NaN => NaN
  end.

(** [log]: [-inf] at zero, NaN below zero (numpy and torch only warn there,
    they do not raise). *)
Definition flog (x : fval) : fval :=
  match x with
  | Fin r => if Rltb 0 r then Fin (ln r) else if Reqb r 0 then NInf else NaN
  | PInf => PInf
  | NInf => NaN
  | NaN => NaN
  end.

(** [torch.clamp(x, min=m)]. *)
Definition fclamp_min (m : R) (x : fval) : fval :=
  match x with
  | Fin r => Fin (Rmax r m)
  | PInf => PInf
  | NInf => Fin m
  | NaN => NaN
  end.

(** [x == c] for a finite constant [c]; NaN equals nothing. *)
Definition feqb (x : fval) (c : R) : bool :=
  match x with
  | Fin r => Reqb r c
  | _ => false
  end.

Definition is_finite (x : fval) : Prop :=
  match x with Fin _ => True | _ => False end.

(** [t.sum()] over one dimension; the empty sum is 0. *)
Definition fsum (xs : list fval) : fval := fold_left fadd xs (Fin 0).

(** [torch.logsumexp(xs, dim)]: log of the sum of the exponentials. *)
Definition logsumexp (xs : list fval) : fval := flog (fsum (map fexp xs)).

(** [F.log_softmax(xs, dim=-1)]: each entry minus the logsumexp of the row. *)
Definition log_softmax (xs : list fval) : list fval :=
  map (fun x => fsub x (logsumexp xs)) xs.

End Float.
Import Float.

(** ** Exceptions *)

Inductive exn : Type :=
| AssertionError
| IndexError
| ValueError
| RuntimeError
| AttributeError
| KeyError
| TypeError.

Inductive result (A : Type) : Type :=
| Ok (a : A)
| Raise (e : exn).
Arguments Ok {A} a.
Arguments Raise {A} e.

Definition bind {A B : Type} (m : result A) (k : A -> result B) : result B :=
  match m with
  | Ok a => k a
  | Raise e => Raise e
  end.

Notation "x <- m ;; k" := (bind m (fun x => k))
  (at level 61, m at next level, right associativity).
Notation "' p <- m ;; k" := (bind m (fun x => let p := x in k))
  (at level 61, p pattern, m at next level, right associativity).

Fixpoint mapM {A B : Type} (f : A -> result B) (l : list A) : result (list B) :=
  match l with
  | [] => Ok []
  | a :: l' => b <- f a ;; bs <- mapM f l' ;; Ok (b :: bs)
  end.

(** Elementwise combination of two equally shaped rows. *)
Fixpoint zip_with {A B C : Type} (f : A -> B -> C) (xs : list A) (ys : list B)
  : list C :=
  match xs, ys with
  | x :: xs', y :: ys' => f x y :: zip_with f xs' ys'
  | _, _ => []
  end.

(** [l[a:b]] for non-negative [a] and [b]. *)
Definition slice {A : Type} (l : list A) (a b : nat) : list A :=
  firstn (b - a) (skipn a l).

(** ** analysis/faiss_mask_flat_gpu.py *)

Module FaissMask.

Definition topk : nat := 1024.
Definition batch_size : nat := 2000.

(** [vals[i]] for a numpy array: a negative index counts from the end, an
    index out of range raises. *)
Definition np_index (vals : list Z) (i : Z) : result Z :=
  let n := Z.of_nat (length vals) in
  let j := if (i <? 0)%Z then (i + n)%Z else i in
  if ((0 <=? j) && (j <? n))%Z
  then match nth_error vals (Z.to_nat j) with
       | Some v => Ok v
       | None => Raise IndexError
       end
  else Raise IndexError.

(** [t[t == c] = v], elementwise. *)
Definition fill_where_eq (c : R) (v : fval) (x : fval) : fval :=
  if feqb x c then v else x.

(** [torch.eq(a, b).float()]. *)
Definition eq_float (a b : Z) : fval :=
  if (a =? b)%Z then Fin 1 else Fin 0.

(** Lines 63-65 for one query: the comparison, then the two in-place
    replacements in the order of the source. *)
Definition index_mask_row (retrieved : list Z) (tgt : Z) : list fval :=
  let m := map (fun v => eq_float v tgt) retrieved in
  let m := map (fill_where_eq 0 (Fin (-10000))) m in
  map (fill_where_eq 1 (Fin 0)) m.

(** The mask of a batch; [tgt.unsqueeze(-1)] pairs row [i] with target [i]. *)
Definition index_mask (retrieved : list (list Z)) (tgt : list Z)
  : list (list fval) :=
  zip_with index_mask_row retrieved tgt.

(** Lines 60-62 for one query: negate, divide by the temperature,
    log-softmax over the candidates. *)
Definition neg_dists (dists : list fval) : list fval :=
  map (fun d => fmul (Fin (-1)) d) dists.

Definition probs_row (temp : R) (dists : list fval) : list fval :=
  log_softmax (map (fun d => fdiv32 d (Fin temp)) (neg_dists dists)).

(** Line 66 for one query. *)
Definition yhat_knn_prob_row (probs mask : list fval) : fval :=
  logsumexp (zip_with fadd probs mask).

Section Sweep.

(** The index is an external library: per query, the [k] nearest
    (distance, id) pairs; a distance is a float32 and may be an infinity
    or NaN. *)
Variable Query : Type.
Variable search : Query -> nat -> list (fval * Z).

(** The datastore values, [vals] (N x 1, squeezed). *)
Variable vals : list Z.

Definition index_search (qs : list Query) (k : nat)
  : list (list fval) * list (list Z) :=
  (map (fun q => map fst (search q k)) qs,
   map (fun q => map snd (search q k)) qs).

Record outputs : Type := {
  all_probs : list fval;
  all_knns : list (list Z);
  all_dists : list fval
}.

(** The lists the loop appends to, one element per batch. *)
Record acc : Type := {
  acc_probs : list (list fval);
  acc_knns : list (list (list Z));
  acc_dists : list (list fval)
}.

Definition num_batches (queries : list Query) : nat :=
  length queries / batch_size + 1.

(** The body of the inner loop, lines 56-68. *)
Definition batch_body (temp : R) (queries : list Query) (tokens : list Z)
    (a : acc) (batch_idx : nat) : result acc :=
  let batch_queries :=
    slice queries (batch_idx * batch_size) ((batch_idx + 1) * batch_size) in
  let tgt :=
    slice tokens (batch_idx * batch_size) ((batch_idx + 1) * batch_size) in
  let '(dists, knns) := index_search batch_queries topk in
  let a_knns := acc_knns a ++ [knns] in
  let dists := map neg_dists dists in
  let probs :=
    map (fun row => log_softmax (map (fun d => fdiv32 d (Fin temp)) row))
        dists in
  retrieved <- mapM (mapM (np_index vals)) knns ;;
  let mask := index_mask retrieved tgt in
  let yhat_knn_prob := zip_with yhat_knn_prob_row probs mask in
  Ok {| acc_probs := acc_probs a ++ [yhat_knn_prob];
        acc_knns := a_knns;
        acc_dists := acc_dists a ++ [map fsum dists] |}.

Fixpoint batch_loop (temp : R) (queries : list Query) (tokens : list Z)
    (a : acc) (idxs : list nat) : result acc :=
  match idxs with
  | [] => Ok a
  | i :: rest =>
      a' <- batch_body temp queries tokens a i ;;
      batch_loop temp queries tokens a' rest
  end.

(** One iteration of the outer loop: what is saved for one temperature. *)
Definition sweep_temp (queries : list Query) (tokens : list Z) (temp : R)
  : result outputs :=
  a <- batch_loop temp queries tokens
         {| acc_probs := []; acc_knns := []; acc_dists := [] |}
         (seq 0 (num_batches queries)) ;;
  Ok {| all_probs := concat (acc_probs a);
        all_knns := concat (acc_knns a);
        all_dists := concat (acc_dists a) |}.

(** The script: the length assertion of line 22, then the sweep. *)
Definition sweep (queries : list Query) (tokens : list Z) (temps : list R)
  : result (list (R * outputs)) :=
  if length queries =? length tokens
  then mapM (fun temp =>
               o <- sweep_temp queries tokens temp ;; Ok (temp, o)) temps
  else Raise AssertionError.

End Sweep.

End FaissMask.

(** ** fairseq/sequence_scorer.py *)

Module Scorer.

(** A position's vector over the vocabulary, a batch x seq tensor of floats,
    a batch x seq x dim tensor, and a batch x seq tensor of token ids. *)
Definition row : Type := list fval.
Definition tensor2 : Type := list (list fval).
Definition tensor3 : Type := list (list row).
Definition ids2 : Type := list (list Z).

(** *** Python slices

    [l[a:b]] with integer bounds: a negative bound counts from the end and
    both bounds are clamped to the length. *)
Definition clamp_index (n i : Z) : Z :=
  let i := if (i <? 0)%Z then (i + n)%Z else i in
  Z.max 0 (Z.min n i).

Definition py_slice {A : Type} (l : list A) (a b : Z) : list A :=
  let n := Z.of_nat (length l) in
  let a' := clamp_index n a in
  let b' := clamp_index n b in
  firstn (Z.to_nat (b' - a')) (skipn (Z.to_nat a') l).

(** [l[a:]]. *)
Definition py_slice_from {A : Type} (l : list A) (a : Z) : list A :=
  skipn (Z.to_nat (clamp_index (Z.of_nat (length l)) a)) l.

(** *** Construction, lines 19-23 *)

Definition sys_maxsize : Z := 2 ^ 63 - 1.

(** [self.softmax_batch = softmax_batch or sys.maxsize] followed by the
    assertion: [None] and [0] are falsy. *)
Definition softmax_batch_or_maxsize (softmax_batch : option Z) : Z :=
  match softmax_batch with
  | None => sys_maxsize
  | Some v => if (v =? 0)%Z then sys_maxsize else v
  end.

(** The assertion leaves a positive number, kept as such in the scorer. *)
Definition init_softmax_batch (softmax_batch : option Z) : result positive :=
  let sb := softmax_batch_or_maxsize softmax_batch in
  if (0 <? sb)%Z then Ok (Z.to_pos sb) else Raise AssertionError.

(** The fields of the scorer that scoring reads.  [coef] is the projection
    matrix, one row per true-vocabulary token over the pseudo-vocabulary. *)
Record scorer : Type := {
  pad : Z;
  softmax_batch : positive;
  coef : option (list row);
  lmbda : R
}.

(** What [decoder_out[1][self.args.knn_keytype]] evaluates to: the
    queries, a [KeyError] when the dict has no such key, a [TypeError]
    when [decoder_out[1]] cannot be subscripted. *)
Inductive keytype_lookup : Type :=
| HasKey (queries : tensor3)
| NoKey
| NotSubscriptable.

(** A model of the ensemble: the decoder output for the batch,
    [get_normalized_probs], which normalises every position on its own,
    and the entry of [decoder_out[1]] under the configured key type. *)
Record model : Type := {
  decoder_out : tensor3;
  get_normalized_probs : bool -> row -> row;
  knn_keytype_entry : keytype_lookup
}.

Record sample : Type := {
  target : ids2;
  start_indices : option (list Z)
}.

(** *** batch_for_softmax, lines 62-75 *)

Definition item : Type := (tensor3 * ids2 * bool)%type.

Definition shape_tsz {A : Type} (t : list (list A)) : nat :=
  match t with
  | [] => 0
  | r :: _ => length r
  end.

(** The [while] loop of lines 72-75.  The offset grows by [sb >= 1] in every
    iteration, so [length flat] iterations always suffice; [fuel] only makes
    the recursion structural, and its exhaustion is never reached when it
    starts at [length flat] (lemma [chunk_loop_fuel] below). *)
Fixpoint chunk_loop (fuel : nat) (sb : positive) (flat : list row)
    (flat_tgt : list Z) (s : Z) : list item :=
  match fuel with
  | O => []
  | S fuel' =>
      if (s <? Z.of_nat (length flat))%Z
      then
        let e := (s + Z.pos sb)%Z in
        ([py_slice flat s e], [py_slice flat_tgt s e], false)
          :: chunk_loop fuel' sb flat flat_tgt e
      else []
  end.

Definition batch_for_softmax (sb : positive) (first : tensor3) (tgt : ids2)
  : result (list item) :=
  let bsz := length first in
  let tsz := shape_tsz first in
  if (Z.of_nat (bsz * tsz) <? Z.pos sb)%Z
  then Ok [(first, tgt, true)]
  else
    let flat := concat first in
    let flat_tgt := concat tgt in
    if length flat_tgt =? length flat
    then Ok (chunk_loop (length flat) sb flat flat_tgt 0)
    else Raise RuntimeError.

(** *** gather_target_probs, lines 77-82 *)

Definition gather1 (r : row) (i : Z) : result fval :=
  if ((0 <=? i) && (i <? Z.of_nat (length r)))%Z
  then match nth_error r (Z.to_nat i) with
       | Some x => Ok x
       | None => Raise RuntimeError
       end
  else Raise RuntimeError.

(** [gather] takes the shape of the index, which may not exceed the input
    in the other dimensions. *)
Definition gather_seq (p : list row) (t : list Z) : result (list fval) :=
  if length t <=? length p
  then mapM (fun rt => gather1 (fst rt) (snd rt)) (combine p t)
  else Raise RuntimeError.

Definition gather_target_probs (probs : tensor3) (tgt : ids2)
  : result tensor2 :=
  if length tgt <=? length probs
  then mapM (fun pt => gather_seq (fst pt) (snd pt)) (combine probs tgt)
  else Raise RuntimeError.

(** *** combine_knn_and_vocab_probs, lines 84-91 *)

Definition same_shape (a b : tensor2) : bool :=
  (length a =? length b)
  && forallb (fun ab => length (fst ab) =? length (snd ab)) (combine a b).

Definition fill2 (c : fval) (t : tensor2) : tensor2 :=
  map (map (fun _ => c)) t.

Definition add2 (a b : tensor2) : tensor2 :=
  zip_with (zip_with fadd) a b.

(** [torch.logsumexp(t, dim=0)] of a stack of two tensors. *)
Definition logsumexp_dim0 (stack : list tensor2) : tensor2 :=
  match stack with
  | [a; b] => zip_with (zip_with (fun x y => logsumexp [x; y])) a b
  | _ => []
  end.

Definition combine_knn_and_vocab_probs (knn_p vocab_p : tensor2) (coeff : R)
  : result tensor2 :=
  if same_shape vocab_p knn_p
  then
    let combine_probs := [vocab_p; knn_p] in
    let coeffs := map (fill2 (Fin 1)) combine_probs in
    let coeffs :=
      match coeffs with
      | c0 :: cs => fill2 (flog (Fin (1 - coeff))) c0 :: cs
      | [] => []
      end in
    let coeffs :=
      match coeffs with
      | c0 :: c1 :: cs => c0 :: fill2 (flog (Fin coeff)) c1 :: cs
      | cs => cs
      end in
    Ok (logsumexp_dim0 (zip_with add2 combine_probs coeffs))
  else Raise RuntimeError.

(** *** generate: scoring one model, lines 105-130 *)

Definition dot (c p : row) : fval := fsum (zip_with fmul c p).

(** [torch.sparse.mm(coef, p.T).T] for one position: every row of the
    matrix against the position's vector. *)
Definition project_row (c : list row) (p : row) : result row :=
  if forallb (fun cr => length cr =? length p) c
  then Ok (map (fun cr => dot cr p) c)
  else Raise RuntimeError.

Definition clamp_floor : R := 1 / 1000000000.

(** Lines 109-116. *)
Definition curr_prob (sc : scorer) (nmodels : nat) (m : model) (bd : tensor3)
  : result tensor3 :=
  match coef sc with
  | None => Ok (map (map (get_normalized_probs m (nmodels =? 1))) bd)
  | Some c =>
      let p := map (map (get_normalized_probs m false)) bd in
      match p with
      | [p0] =>
          q <- mapM (project_row c) p0 ;;
          Ok [map (map (fun x => flog (fclamp_min clamp_floor x))) q]
      | _ => Raise AssertionError
      end
  end.

(** The variable [probs] of the loop: [None], the gathered tensor of the
    single-shot path, or the flat buffer of the chunked path. *)
Inductive probs_state : Type :=
| PNone
| PGathered (g : tensor2)
| PBuffer (buf : list fval).

Definition numel {A : Type} (t : list (list A)) : nat := length (concat t).

(** [buf[a:b] = src]: the slice and the source must have the same size. *)
Definition assign_slice (buf : list fval) (a b : nat) (src : list fval)
  : result (list fval) :=
  if length (slice buf a b) =? length src
  then Ok (firstn a buf ++ src ++ skipn b buf)
  else Raise RuntimeError.

Section Generate.

(** [curr_prob.new(n)] is uninitialised memory: position [i] holds
    [junk i]. *)
Variable junk : nat -> fval.

Definition new_buffer (n : nat) : list fval := map junk (seq 0 n).

(** The body of the loop over the yielded slices, lines 108-128. *)
Definition score_item (sc : scorer) (nmodels : nat) (m : model)
    (orig_target : ids2) (st : probs_state * nat) (it : item)
  : result (probs_state * nat) :=
  let '(bd, tgt, is_single) := it in
  let '(probs, idx) := st in
  cp <- curr_prob sc nmodels m bd ;;
  if is_single
  then g <- gather_target_probs cp orig_target ;; Ok (PGathered g, idx)
  else
    buf <- match probs with
           | PNone => Ok (new_buffer (numel orig_target))
           | PBuffer b => Ok b
           | PGathered _ => Raise RuntimeError
           end ;;
    let step := length cp * shape_tsz cp in
    let e := step + idx in
    tgt_probs <- gather_target_probs cp tgt ;;
    buf' <- assign_slice buf idx e (concat tgt_probs) ;;
    Ok (PBuffer buf', e).

Fixpoint score_items (sc : scorer) (nmodels : nat) (m : model)
    (orig_target : ids2) (st : probs_state * nat) (its : list item)
  : result (probs_state * nat) :=
  match its with
  | [] => Ok st
  | it :: rest =>
      st' <- score_item sc nmodels m orig_target st it ;;
      score_items sc nmodels m orig_target st' rest
  end.

(** [buf.view(shape)] for a flat buffer. *)
Fixpoint unflatten {A B : Type} (shape : list (list B)) (buf : list A)
  : list (list A) :=
  match shape with
  | [] => []
  | r :: rest =>
      firstn (length r) buf :: unflatten rest (skipn (length r) buf)
  end.

(** Line 130, [probs.view(sample['target'].shape)]. *)
Definition view_as_target (probs : probs_state) (tgt : ids2)
  : result tensor2 :=
  match probs with
  | PNone => Raise AttributeError
  | PGathered g => Ok g
  | PBuffer buf => Ok (unflatten tgt buf)
  end.

(** Lines 105-130: the per-token target probabilities of one model. *)
Definition score_model (sc : scorer) (nmodels : nat) (m : model)
    (orig_target : ids2) : result tensor2 :=
  batched <- batch_for_softmax (softmax_batch sc) (decoder_out m)
               orig_target ;;
  st <- score_items sc nmodels m orig_target (PNone, 0) batched ;;
  view_as_target (fst st) orig_target.

(** *** generate: retrieval fusion, lines 132-152

    [dstore.get_knn_log_prob] is outside this file: given the queries and
    the targets it returns the batch x seq retrieval log-probabilities. *)
Definition knn_dstore : Type := tensor3 -> ids2 -> tensor2.

(** Line 135, [bd[1][self.args.knn_keytype]]. *)
Definition lookup_queries (m : model) : result tensor3 :=
  match knn_keytype_entry m with
  | HasKey queries => Ok queries
  | NoKey => Raise KeyError
  | NotSubscriptable => Raise TypeError
  end.

Definition fuse_knn (sc : scorer) (nmodels : nat) (kwargs : option knn_dstore)
    (m : model) (orig_target : ids2) (probs : tensor2)
  : result (tensor2 * option tensor2) :=
  match kwargs with
  | None => Ok (probs, None)
  | Some dstore =>
      queries <- lookup_queries m ;;
      if negb (nmodels =? 1)
      then Raise ValueError
      else
        let yhat_knn_prob := dstore queries orig_target in
        p <- combine_knn_and_vocab_probs yhat_knn_prob probs (lmbda sc) ;;
        Ok (p, Some yhat_knn_prob)
  end.

(** *** generate: the ensemble, lines 96-167 *)

(** [avg_probs.add_(probs)]. *)
Definition add_ (avg probs : tensor2) : result tensor2 :=
  if same_shape avg probs then Ok (add2 avg probs) else Raise RuntimeError.

Fixpoint models_loop (sc : scorer) (nmodels : nat) (kwargs : option knn_dstore)
    (orig_target : ids2) (avg_probs : option tensor2)
    (yhat : option tensor2) (ms : list model)
  : result (option tensor2 * option tensor2) :=
  match ms with
  | [] => Ok (avg_probs, yhat)
  | m :: rest =>
      probs <- score_model sc nmodels m orig_target ;;
      py <- fuse_knn sc nmodels kwargs m orig_target probs ;;
      avg' <- match avg_probs with
              | None => Ok (fst py)
              | Some a => add_ a (fst py)
              end ;;
      models_loop sc nmodels kwargs orig_target (Some avg') (snd py) rest
  end.

(** Lines 165-167: [div_] then [log_], only for a real ensemble. *)
Definition average (nmodels : nat) (avg_probs : tensor2) : tensor2 :=
  if 1 <? nmodels
  then map (map (fun x => flog (fdiv x (Fin (INR nmodels))))) avg_probs
  else avg_probs.

(** *** generate: the hypotheses, lines 171-208 *)

Record hypo : Type := {
  tokens : list Z;
  score : fval;
  positional_scores : list fval;
  knn_probs : option (list fval)
}.

(** Modelled from the spec: [utils.strip_pad] is not among the sources;
    it "strips padding from the target", keeping the non-pad tokens. *)
Definition strip_pad (t : list Z) (pad : Z) : list Z :=
  filter (fun x => negb (x =? pad)%Z) t.

Definition index_or_raise {A : Type} (l : list A) (i : nat) : result A :=
  match nth_error l i with
  | Some x => Ok x
  | None => Raise IndexError
  end.

(** The body of the loop over the sequences, for sequence [i]. *)
Definition hypo_i (sc : scorer) (smp : sample) (avg_probs : tensor2)
    (yhat : option tensor2) (start_idxs : list Z) (i : nat) : result hypo :=
  s <- index_or_raise start_idxs i ;;
  tgt_i <- index_or_raise (target smp) i ;;
  let ref := strip_pad (py_slice_from tgt_i s) (pad sc) in
  let tgt_len := Z.of_nat (length ref) in
  row_i <- index_or_raise avg_probs i ;;
  let avg_probs_i := py_slice row_i s (s + tgt_len) in
  knn_i <- match yhat with
           | None => Ok None
           | Some y =>
               y_i <- index_or_raise y i ;;
               Ok (Some (py_slice y_i s (s + tgt_len)))
           end ;;
  let score_i := fdiv (fsum avg_probs_i) (Fin (IZR tgt_len)) in
  Ok {| tokens := ref;
        score := score_i;
        positional_scores := avg_probs_i;
        knn_probs := knn_i |}.

Definition generate (sc : scorer) (models : list model) (smp : sample)
    (kwargs : option knn_dstore) : result (list hypo) :=
  let nmodels := length models in
  ay <- models_loop sc nmodels kwargs (target smp) None None models ;;
  match fst ay with
  | None => Raise AttributeError
  | Some avg_probs =>
      let avg_probs := average nmodels avg_probs in
      let bsz := length avg_probs in
      let start_idxs :=
        match start_indices smp with
        | Some l => l
        | None => repeat 0%Z bsz
        end in
      mapM (hypo_i sc smp avg_probs (snd ay) start_idxs) (seq 0 bsz)
  end.

End Generate.

End Scorer.

(** ** fairseq/sequence_scorer.py: the constructor and the attention maps *)

Module ScorerRest.

Import Scorer.

(** The options of [args] that the constructor and [generate] read. *)
Record args : Type := {
  pseudo_vocab_ratio : Z;
  load_centroid_distribution : option String.string;
  num_extra_embed_file : option String.string;
  args_lmbda : R
}.

(** [if s:] for an optional string: [None] and the empty string are
    falsy. *)
Definition truthy (o : option String.string) : option String.string :=
  match o with
  | Some String.EmptyString => None
  | other => other
  end.

Section Init.

(** The builders of the projection matrix are outside this file:
    [initialize_projection_matrix] without and with the file of extra
    embeddings, and the loading of the centroid distribution. *)
Variable one_hot : Z -> result (list row).
Variable load_npz : String.string -> result (list row).
Variable extra_embed : Z -> String.string -> result (list row).

(** Lines 26-49: three tests in sequence, each overwriting [self.coef]. *)
Definition init_coef (a : args) : result (option (list row)) :=
  let coef := None in
  coef <- (if (1 <? pseudo_vocab_ratio a)%Z
           then c <- one_hot (pseudo_vocab_ratio a) ;; Ok (Some c)
           else Ok coef) ;;
  coef <- match truthy (load_centroid_distribution a) with
          | Some f => c <- load_npz f ;; Ok (Some c)
          | None => Ok coef
          end ;;
  match truthy (num_extra_embed_file a) with
  | Some f => c <- extra_embed (pseudo_vocab_ratio a) f ;; Ok (Some c)
  | None => Ok coef
  end.

(** [__init__], lines 19-55; [args] defaults to [None]. *)
Definition init (tgt_pad : Z) (softmax_batch : option Z) (a : option args)
  : result scorer :=
  sb <- init_softmax_batch softmax_batch ;;
  match a with
  | None => Raise AttributeError
  | Some a =>
      c <- init_coef a ;;
      Ok {| pad := tgt_pad; softmax_batch := sb; coef := c;
            lmbda := args_lmbda a |}
  end.

End Init.

(** *** The attention maps of [generate], lines 101-103, 158-163, 168-169 *)

(** A Python value that is a tensor, [None], or something else. *)
Inductive pyval : Type :=
| PTensor (t : tensor3)
| PNone
| POther.

(** [decoder_out[1]]: a dict, of which the entry ['attn'] is taken (a
    missing key reads as [None]), or any other value. *)
Inductive dec_extra : Type :=
| Dict (attn_entry : pyval)
| Plain (v : pyval).

Definition attn_of (e : dec_extra) : pyval :=
  match e with
  | Dict v => v
  | Plain v => v
  end.

(** Broadcasting of one dimension to length [n]: a dimension of that
    length is kept, a dimension of length 1 is repeated. *)
Definition broadcast {A : Type} (n : nat) (l : list A) : option (list A) :=
  if length l =? n then Some l
  else match l with
       | [x] => Some (repeat x n)
       | _ => None
       end.

(** [avg.add_(t)] dimension by dimension: [t] is broadcast to the shape
    of [avg], and the call raises when it cannot be. *)
Definition add_broadcast {A B : Type} (add : A -> B -> result A)
    (avg : list A) (t : list B) : result (list A) :=
  match broadcast (length avg) t with
  | Some t' => mapM (fun ab => add (fst ab) (snd ab)) (combine avg t')
  | None => Raise RuntimeError
  end.

Definition add_attn (avg attn : tensor3) : result tensor3 :=
  add_broadcast
    (add_broadcast (add_broadcast (fun x y => Ok (fadd x y)))) avg attn.

(** Lines 158-163 for one model. *)
Definition attn_step (avg_attn : option tensor3) (e : dec_extra)
  : result (option tensor3) :=
  match attn_of e with
  | PTensor attn =>
      match avg_attn with
      | None => Ok (Some attn)
      | Some avg => s <- add_attn avg attn ;; Ok (Some s)
      end
  | _ => Ok avg_attn
  end.

Fixpoint attn_loop (avg_attn : option tensor3) (es : list dec_extra)
  : result (option tensor3) :=
  match es with
  | [] => Ok avg_attn
  | e :: rest => a <- attn_step avg_attn e ;; attn_loop a rest
  end.

(** The attention part of the loop over the models, then lines 165-169. *)
Definition avg_attention (es : list dec_extra) : result (option tensor3) :=
  a <- attn_loop None es ;;
  if 1 <? length es
  then Ok (option_map
             (map (map (map (fun x => fdiv x (Fin (INR (length es)))))))
             a)
  else Ok a.

End ScorerRest.

(** * Specification-side definitions *)

Import FaissMask Scorer.

(** The sum of a list of reals, and the sum of their exponentials. *)
Definition Rsum (l : list R) : R := fold_right Rplus 0%R l.
Definition Rsumexp (l : list R) : R := Rsum (map exp l).

(** The mask as the specification words it: 0 at a match, -1e4 elsewhere. *)
Definition mask_bias (v t : Z) : fval :=
  if (v =? t)%Z then Fin 0 else Fin (-10000).

(** The datastore value a valid neighbour id refers to. *)
Definition valid_id (vals : list Z) (i : Z) : Prop :=
  (- Z.of_nat (length vals) <= i < Z.of_nat (length vals))%Z.

Definition val_at (vals : list Z) (i : Z) : Z :=
  nth (Z.to_nat (if (i <? 0)%Z then i + Z.of_nat (length vals) else i)%Z)
      vals 0%Z.

(** What the sweep computes for one query and its target. *)
Section PerQuery.
Variable Query : Type.
Variable search : Query -> nat -> list (fval * Z).
Variable vals : list Z.

Definition dists_of (q : Query) : list fval := map fst (search q topk).
Definition knns_of (q : Query) : list Z := map snd (search q topk).
Definition yhat_of (temp : R) (q : Query) (t : Z) : fval :=
  yhat_knn_prob_row (probs_row temp (dists_of q))
    (index_mask_row (map (val_at vals) (knns_of q)) t).
End PerQuery.

(** A one-entry datastore whose index puts every neighbour at distance 1. *)
Definition one_hit (_ : unit) (k : nat) : list (fval * Z) :=
  repeat (Fin 1, 0%Z) k.





(** A small configuration: one sequence of one token over a true vocabulary
    of two tokens, each with two pseudo-tokens; a model that spreads its
    mass evenly over the four pseudo-tokens. *)
Definition uniform4 : model :=
  {| decoder_out := [[[Fin 0; Fin 0; Fin 0; Fin 0]]];
     get_normalized_probs := fun log_probs _ =>
       if log_probs then repeat (Fin (ln (1 / 4))) 4
       else repeat (Fin (1 / 4)) 4;
     knn_keytype_entry := HasKey [[[Fin 0]]] |}.

Definition pair_coef : list row :=
  [[Fin 1; Fin 1; Fin 0; Fin 0]; [Fin 0; Fin 0; Fin 1; Fin 1]].

Definition plain_scorer : scorer :=
  {| pad := 1; softmax_batch := 1024; coef := None; lmbda := 1 / 4 |}.

Definition clustered_scorer : scorer :=
  {| pad := 1; softmax_batch := 1024; coef := Some pair_coef;
     lmbda := 1 / 4 |}.

Definition one_token : sample :=
  {| target := [[0%Z]]; start_indices := None |}.

Definition no_junk (_ : nat) : fval := NaN.


(** The normalised vector of one position, the target probability of one
    position, and those of a flat run of positions: what both scoring paths
    are compared with. *)
Definition row_prob (sc : scorer) (n : nat) (m : model) (r : row)
  : result row :=
  match coef sc with
  | None => Ok (get_normalized_probs m (n =? 1) r)
  | Some c =>
      q <- project_row c (get_normalized_probs m false r) ;;
      Ok (map (fun x => flog (fclamp_min clamp_floor x)) q)
  end.

Definition pos_prob (sc : scorer) (n : nat) (m : model) (rt : row * Z)
  : result fval :=
  p <- row_prob sc n m (fst rt) ;; gather1 p (snd rt).

Definition all_pos (sc : scorer) (n : nat) (m : model) (rows : list row)
    (ts : list Z) : result (list fval) :=
  mapM (pos_prob sc n m) (combine rows ts).

Definition with_softmax_batch (sc : scorer) (sb : positive) : scorer :=
  {| pad := pad sc; softmax_batch := sb; coef := coef sc;
     lmbda := lmbda sc |}.

(** A result whose only possible exception is [RuntimeError]. *)
Definition only_runtime {A : Type} (r : result A) : Prop :=
  forall e, r = Raise e -> e = RuntimeError.

(** A batch x seq tensor and a target of the same rectangular shape. *)
Definition rectangular {A : Type} (tsz : nat) (t : list (list A)) : Prop :=
  Forall (fun r => length r = tsz) t.

(** Two sequences of one token each, for the clustered scorer. *)
Definition uniform4_pair : model :=
  {| decoder_out := [[[Fin 0; Fin 0; Fin 0; Fin 0]];
                     [[Fin 0; Fin 0; Fin 0; Fin 0]]];
     get_normalized_probs := get_normalized_probs uniform4;
     knn_keytype_entry := HasKey [[[Fin 0]]; [[Fin 0]]] |}.

(** A log-probability that is finite or negative infinity, and the
    probability it stands for. *)
Definition finite_or_ninf (x : fval) : Prop :=
  match x with
  | Fin _ | NInf => True
  | _ => False
  end.

Definition mass (x : fval) : R :=
  match x with
  | Fin r => exp r
  | _ => 0%R
  end.

(** The quotient of a distance by the temperature stays within the
    finite range of float32. *)
Definition in_float32_range (temp d : R) : Prop :=
  (Rabs (d / temp) < flt_overflow)%R.



(** Options that configure no projection matrix. *)
Definition plain_args : ScorerRest.args :=
  {| ScorerRest.pseudo_vocab_ratio := 1;
     ScorerRest.load_centroid_distribution := None;
     ScorerRest.num_extra_embed_file := None;
     ScorerRest.args_lmbda := 1 / 4 |}.

(** * Properties *)

(** ** Floats *)

Section FloatFacts.

Open Scope R_scope.

Lemma Rltb_true (a b : R) : a < b -> Rltb a b = true.
Proof. intros H. unfold Rltb. destruct (Rlt_dec a b); [reflexivity | contradiction]. Qed.

Lemma Rltb_false (a b : R) : ~ a < b -> Rltb a b = false.
Proof. intros H. unfold Rltb. destruct (Rlt_dec a b); [contradiction | reflexivity]. Qed.

Lemma Reqb_true (a b : R) : a = b -> Reqb a b = true.
Proof. intros H. unfold Reqb. destruct (Req_dec_T a b); [reflexivity | contradiction]. Qed.

Lemma Reqb_false (a b : R) : a <> b -> Reqb a b = false.
Proof. intros H. unfold Reqb. destruct (Req_dec_T a b); [contradiction | reflexivity]. Qed.

Lemma flog_pos (r : R) : 0 < r -> flog (Fin r) = Fin (ln r).
Proof. intros H. simpl. now rewrite Rltb_true. Qed.

Lemma flog_zero : flog (Fin 0) = NInf.
Proof.
  simpl. rewrite Rltb_false by lra. now rewrite Reqb_true.
Qed.

Lemma flog_neg (r : R) : r < 0 -> flog (Fin r) = NaN.
Proof.
  intros H. simpl. rewrite Rltb_false by lra. now rewrite Reqb_false by lra.
Qed.

Lemma fdiv_fin (a b : R) : b <> 0 -> fdiv (Fin a) (Fin b) = Fin (a / b).
Proof. intros H. simpl. now rewrite Reqb_false. Qed.

Lemma fold_fadd_fin (l : list R) (a : R) :
  fold_left fadd (map Fin l) (Fin a) = Fin (a + Rsum l).
Proof.
  revert a. induction l as [|x l IH]; intros a; simpl.
  - f_equal. lra.
  - rewrite IH. f_equal. lra.
Qed.

Lemma fsum_fin (l : list R) : fsum (map Fin l) = Fin (Rsum l).
Proof. unfold fsum. rewrite fold_fadd_fin. f_equal. lra. Qed.

Lemma Rsumexp_pos (l : list R) : l <> [] -> 0 < Rsumexp l.
Proof.
  unfold Rsumexp. induction l as [|x l IH]; [congruence|]. intros _.
  cbn [map Rsum fold_right]. fold (Rsum (map exp l)).
  pose proof (exp_pos x) as Hx. destruct l as [|y l].
  - simpl. lra.
  - assert (0 < Rsum (map exp (y :: l))) by (apply IH; congruence). lra.
Qed.



Lemma logsumexp_fin (l : list R) :
  l <> [] -> logsumexp (map Fin l) = Fin (ln (Rsumexp l)).
Proof.
  intros H. unfold logsumexp. rewrite map_map. cbn [fexp].
  rewrite <- (map_map exp Fin), fsum_fin.
  apply flog_pos. now apply Rsumexp_pos.
Qed.

Lemma log_softmax_fin (l : list R) :
  l <> [] ->
  log_softmax (map Fin l) = map (fun x => Fin (x - ln (Rsumexp l))) l.
Proof.
  intros H. unfold log_softmax. rewrite (logsumexp_fin l H), map_map.
  apply map_ext. intros x. reflexivity.
Qed.

Lemma fmul_neg_one (x : fval) : fmul (Fin (-1)) x = fneg x.
Proof.
  destruct x as [r| | |]; cbn [fmul fneg]; try reflexivity.
  - f_equal. lra.
  - unfold Rsign. rewrite Rltb_false, Rltb_true by lra. reflexivity.
  - unfold Rsign. rewrite Rltb_false, Rltb_true by lra. reflexivity.
Qed.

Lemma fneg_fadd (a b : fval) : fneg (fadd a b) = fadd (fneg a) (fneg b).
Proof.
  destruct a, b; cbn [fadd fneg]; try reflexivity. f_equal. lra.
Qed.


End FloatFacts.

(** ** The target-matching mask and the converter *)

Section MaskFacts.

Open Scope R_scope.

Lemma fill_eq_float (v t : Z) :
  fill_where_eq 1 (Fin 0) (fill_where_eq 0 (Fin (-10000)) (eq_float v t))
  = mask_bias v t.
Proof.
  unfold eq_float, mask_bias, fill_where_eq.
  destruct (v =? t)%Z; cbn [feqb].
  - rewrite (Reqb_false 1 0) by lra. cbn [feqb]. now rewrite Reqb_true.
  - rewrite (Reqb_true 0 0) by reflexivity. cbn [feqb].
    now rewrite Reqb_false by lra.
Qed.

Lemma index_mask_row_spec (retrieved : list Z) (t : Z) :
  index_mask_row retrieved t = map (fun v => mask_bias v t) retrieved.
Proof.
  unfold index_mask_row. rewrite !map_map. apply map_ext.
  intros v. apply fill_eq_float.
Qed.

Lemma mask_bias_cases (v t : Z) :
  (v = t /\ mask_bias v t = Fin 0)
  \/ (v <> t /\ mask_bias v t = Fin (-10000)).
Proof.
  unfold mask_bias. destruct (Z.eqb_spec v t); [left | right]; auto.
Qed.

Lemma zip_with_length {A B C : Type} (f : A -> B -> C) (xs : list A)
    (ys : list B) :
  length xs = length ys -> length (zip_with f xs ys) = length xs.
Proof.
  revert ys. induction xs as [|x xs IH]; intros [|y ys] H; simpl in *;
    try congruence. f_equal. apply IH. congruence.
Qed.

Lemma zip_with_nth_error {A B C : Type} (f : A -> B -> C) (xs : list A)
    (ys : list B) (i : nat) (x : A) (y : B) :
  nth_error xs i = Some x -> nth_error ys i = Some y ->
  nth_error (zip_with f xs ys) i = Some (f x y).
Proof.
  revert ys i. induction xs as [|x0 xs IH]; intros [|y0 ys] [|i] Hx Hy;
    simpl in *; try congruence.
  now apply IH.
Qed.

(** C5.  For a batch x k array of retrieved value ids and a batch of
    targets, the mask has the shape of the array, and its entry for
    candidate [j] of query [i] is 0 exactly when the retrieved id equals
    the query's target and the finite bias -10000 otherwise; in
    particular it is never negative infinity. *)
Theorem index_mask_bias (retrieved : list (list Z)) (tgt : list Z)
    (Hshape : length retrieved = length tgt) :
  length (index_mask retrieved tgt) = length retrieved
  /\ forall i ids t, nth_error retrieved i = Some ids ->
       nth_error tgt i = Some t ->
       exists mrow, nth_error (index_mask retrieved tgt) i = Some mrow
         /\ length mrow = length ids
         /\ forall j v, nth_error ids j = Some v ->
              exists b, nth_error mrow j = Some b
                /\ (b = Fin 0 <-> v = t)
                /\ (b = Fin (-10000) <-> v <> t)
                /\ b <> NInf.
Proof.
  split.
  - now apply zip_with_length.
  - intros i ids t Hi Ht. exists (index_mask_row ids t). split.
    + unfold index_mask. now apply zip_with_nth_error.
    + rewrite index_mask_row_spec. split; [apply length_map|].
      intros j v Hj. exists (mask_bias v t). split.
      * rewrite nth_error_map, Hj. reflexivity.
      * destruct (mask_bias_cases v t) as [[E ->] | [E ->]].
        -- repeat split; try congruence; intros H; try reflexivity.
           inversion H; lra.
        -- repeat split; try congruence; intros H; try reflexivity.
           inversion H; lra.
Qed.

Lemma index_mask_bias_witness :
  length (index_mask [[5; 7]; [9; 9]]%Z [5; 9]%Z) = 2%nat
  /\ exists mrow,
       nth_error (index_mask [[5; 7]; [9; 9]]%Z [5; 9]%Z) 0 = Some mrow
       /\ nth_error mrow 1 = Some (Fin (-10000)).
Proof.
  destruct (index_mask_bias [[5; 7]; [9; 9]]%Z [5; 9]%Z eq_refl)
    as [Hlen Hrows].
  split; [exact Hlen|].
  destruct (Hrows 0%nat [5; 7]%Z 5%Z eq_refl eq_refl)
    as [mrow [Hm [_ Hent]]].
  exists mrow. split; [exact Hm|].
  destruct (Hent 1%nat 7%Z eq_refl) as [b [Hb [_ [Hneq _]]]].
  rewrite Hb. f_equal. apply Hneq. discriminate.
Defined.

Lemma neg_dists_fin (dists : list R) :
  neg_dists (map Fin dists) = map Fin (map (fun d => -1 * d) dists).
Proof. unfold neg_dists. now rewrite !map_map. Qed.

Lemma round32_in_range (r : R) :
  Rabs r < flt_overflow -> round32 (Fin r) = Fin r.
Proof. intros H. cbn [round32]. now rewrite Rltb_true. Qed.


Lemma fdiv32_fin (a b : R) :
  b <> 0 -> Rabs (a / b) < flt_overflow ->
  fdiv32 (Fin a) (Fin b) = Fin (a / b).
Proof.
  intros Hb Hr. unfold fdiv32. rewrite fdiv_fin by assumption.
  now apply round32_in_range.
Qed.

(** A float32 distance divided by a temperature of at least 1, as all the
    temperatures of the sweep are, does not overflow. *)
Lemma sweep_temperature_in_range (temp d : R) :
  1 <= temp -> Rabs d <= flt_max -> in_float32_range temp d.
Proof.
  intros HT Hd. unfold in_float32_range.
  assert (Hmax : flt_max < flt_overflow)
    by (unfold flt_max, flt_max_z, flt_overflow, flt_overflow_z; lra).
  unfold Rdiv. rewrite Rabs_mult, (Rabs_pos_eq (/ temp))
    by (left; apply Rinv_0_lt_compat; lra).
  assert (Hinv : / temp <= 1)
    by (rewrite <- Rinv_1; apply Rinv_le_contravar; lra).
  assert (0 < / temp) by (apply Rinv_0_lt_compat; lra).
  pose proof (Rabs_pos d). nra.
Qed.

(** The logits of a row of finite distances that do not overflow. *)
Lemma logits_fin (temp : R) (dists : list R) :
  temp <> 0 -> Forall (in_float32_range temp) dists ->
  map (fun d => fdiv32 d (Fin temp)) (neg_dists (map Fin dists))
  = map Fin (map (fun d => -1 * d / temp) dists).
Proof.
  intros HT Hr. rewrite neg_dists_fin, !map_map.
  apply map_ext_in. intros d Hd. apply fdiv32_fin; [assumption|].
  apply (proj1 (Forall_forall _ _) Hr) in Hd. unfold in_float32_range in Hd.
  replace (-1 * d / temp) with (- (d / temp)) by (field; assumption).
  now rewrite Rabs_Ropp.
Qed.

Lemma probs_row_fin (temp : R) (dists : list R) :
  temp <> 0 -> dists <> [] -> Forall (in_float32_range temp) dists ->
  probs_row temp (map Fin dists)
  = map Fin (map (fun x => x - ln (Rsumexp (map (fun d => -1 * d / temp) dists)))
                 (map (fun d => -1 * d / temp) dists)).
Proof.
  intros HT Hne Hr. unfold probs_row. rewrite logits_fin by assumption.
  rewrite log_softmax_fin.
  - symmetry. apply map_map.
  - destruct dists; [congruence | discriminate].
Qed.


Lemma small_in_range (temp d : R) :
  1 <= temp -> Rabs d <= 1000 -> in_float32_range temp d.
Proof.
  intros HT Hd. apply sweep_temperature_in_range; [assumption|].
  unfold flt_max, flt_max_z. lra.
Qed.












End MaskFacts.

(** ** The temperature sweep *)

Section ListFacts.

Context {A B C : Type}.

Lemma firstn_plus (n m : nat) (l : list A) :
  firstn (n + m) l = firstn n l ++ firstn m (skipn n l).
Proof.
  revert l. induction n as [|n IH]; intros [|x l]; simpl;
    try reflexivity.
  - now rewrite firstn_nil.
  - now rewrite IH.
Qed.

(** Consecutive slices of width [w] tile a prefix of the list. *)
Lemma concat_slices (w n : nat) (l : list A) :
  concat (map (fun b => slice l (b * w) ((b + 1) * w)) (seq 0 n))
  = firstn (n * w) l.
Proof.
  induction n as [|n IH]; [reflexivity|].
  rewrite seq_S, map_app, concat_app, IH. simpl.
  rewrite app_nil_r. unfold slice.
  replace ((n + 1) * w - n * w) with w by lia.
  replace (w + n * w) with (n * w + w) by lia.
  symmetry. apply firstn_plus.
Qed.

Lemma concat_slices_all (w n : nat) (l : list A) :
  length l <= n * w ->
  concat (map (fun b => slice l (b * w) ((b + 1) * w)) (seq 0 n)) = l.
Proof. intros H. rewrite concat_slices. now apply firstn_all2. Qed.

Lemma zip_with_firstn (f : A -> B -> C) (n : nat) (xs : list A)
    (ys : list B) :
  zip_with f (firstn n xs) (firstn n ys) = firstn n (zip_with f xs ys).
Proof.
  revert xs ys. induction n as [|n IH]; intros [|x xs] [|y ys]; simpl;
    try reflexivity. now rewrite IH.
Qed.

Lemma zip_with_skipn (f : A -> B -> C) (n : nat) (xs : list A)
    (ys : list B) :
  length xs = length ys ->
  zip_with f (skipn n xs) (skipn n ys) = skipn n (zip_with f xs ys).
Proof.
  revert xs ys. induction n as [|n IH]; intros [|x xs] [|y ys] H;
    simpl in *; try reflexivity; try congruence.
  apply IH. congruence.
Qed.

Lemma zip_with_slice (f : A -> B -> C) (a b : nat) (xs : list A)
    (ys : list B) :
  length xs = length ys ->
  zip_with f (slice xs a b) (slice ys a b) = slice (zip_with f xs ys) a b.
Proof.
  intros H. unfold slice. now rewrite zip_with_firstn, zip_with_skipn.
Qed.

Lemma map_slice (f : A -> B) (a b : nat) (l : list A) :
  map f (slice l a b) = slice (map f l) a b.
Proof. unfold slice. now rewrite skipn_map, firstn_map. Qed.

Lemma zip_with_map_l {A' : Type} (f : A' -> B -> C) (g : A -> A')
    (xs : list A) (ys : list B) :
  zip_with f (map g xs) ys = zip_with (fun x y => f (g x) y) xs ys.
Proof.
  revert ys. induction xs as [|x xs IH]; intros [|y ys]; simpl;
    try reflexivity. now rewrite IH.
Qed.

Lemma mapM_ok (f : A -> result B) (g : A -> B) (l : list A) :
  Forall (fun x => f x = Ok (g x)) l -> mapM f l = Ok (map g l).
Proof.
  induction 1 as [|x l Hx _ IH]; simpl; [reflexivity|].
  now rewrite Hx, IH.
Qed.

End ListFacts.

Section SweepFacts.

Open Scope R_scope.

Variable Query : Type.
Variable search : Query -> nat -> list (fval * Z).
Variable vals : list Z.

(** The index only returns ids of stored entries. *)
Hypothesis search_valid :
  forall q k, Forall (valid_id vals) (map snd (search q k)).

Lemma np_index_ok (i : Z) :
  valid_id vals i -> np_index vals i = Ok (val_at vals i).
Proof.
  unfold valid_id, np_index, val_at. intros H.
  set (n := Z.of_nat (length vals)) in *.
  set (j := (if (i <? 0)%Z then (i + n)%Z else i)).
  assert (Hj : (0 <= j < n)%Z).
  { subst j. destruct (Z.ltb_spec i 0); lia. }
  replace ((0 <=? j)%Z && (j <? n)%Z)%bool with true
    by (symmetry; apply andb_true_iff; split;
        [apply Z.leb_le | apply Z.ltb_lt]; lia).
  destruct (nth_error vals (Z.to_nat j)) as [v|] eqn:E.
  - f_equal. symmetry. now apply nth_error_nth.
  - apply nth_error_None in E. subst n. lia.
Qed.

Lemma retrieved_ok (qs : list Query) :
  mapM (mapM (np_index vals)) (map (knns_of Query search) qs)
  = Ok (map (fun q => map (val_at vals) (knns_of Query search q)) qs).
Proof.
  rewrite <- (map_map (knns_of Query search) (map (val_at vals))).
  apply mapM_ok. apply Forall_forall. intros ids Hin.
  apply in_map_iff in Hin. destruct Hin as [q [<- _]].
  apply mapM_ok. eapply Forall_impl; [|apply search_valid].
  intros i Hi. now apply np_index_ok.
Qed.

(** What one batch appends to the three lists. *)
Lemma batch_body_spec (temp : R) (queries : list Query) (tokens : list Z)
    (a : acc) (b : nat) :
  length queries = length tokens ->
  batch_body Query search vals temp queries tokens a b
  = Ok {| acc_probs :=
            acc_probs a
            ++ [slice (zip_with (yhat_of Query search vals temp)
                         queries tokens)
                      (b * batch_size) ((b + 1) * batch_size)];
          acc_knns :=
            acc_knns a
            ++ [slice (map (knns_of Query search) queries)
                      (b * batch_size) ((b + 1) * batch_size)];
          acc_dists :=
            acc_dists a
            ++ [slice (map (fun q => fsum (neg_dists (dists_of Query search q)))
                         queries)
                      (b * batch_size) ((b + 1) * batch_size)] |}.
Proof.
  intros Hlen. unfold batch_body, index_search.
  set (qs := slice queries (b * batch_size) ((b + 1) * batch_size)).
  set (ts := slice tokens (b * batch_size) ((b + 1) * batch_size)).
  change (map (fun q => map snd (search q topk)) qs)
    with (map (knns_of Query search) qs).
  rewrite retrieved_ok. cbn [bind]. f_equal. f_equal.
  - f_equal. f_equal. rewrite <- zip_with_slice by assumption.
    fold qs ts. unfold index_mask.
    rewrite !map_map, !zip_with_map_l.
    clearbody qs ts. clear. revert ts.
    induction qs as [|q qs IH]; intros [|t ts]; simpl; try reflexivity.
    now rewrite IH.
  - f_equal. f_equal. subst qs. now rewrite map_slice.
  - f_equal. f_equal. subst qs. rewrite <- map_slice, !map_map.
    reflexivity.
Qed.

Lemma batch_loop_spec (temp : R) (queries : list Query) (tokens : list Z)
    (idxs : list nat) (a : acc) :
  length queries = length tokens ->
  batch_loop Query search vals temp queries tokens a idxs
  = Ok {| acc_probs :=
            acc_probs a
            ++ map (fun b => slice (zip_with (yhat_of Query search vals temp)
                                      queries tokens)
                              (b * batch_size) ((b + 1) * batch_size)) idxs;
          acc_knns :=
            acc_knns a
            ++ map (fun b => slice (map (knns_of Query search) queries)
                              (b * batch_size) ((b + 1) * batch_size)) idxs;
          acc_dists :=
            acc_dists a
            ++ map (fun b =>
                      slice (map (fun q => fsum (neg_dists (dists_of Query search q)))
                               queries)
                            (b * batch_size) ((b + 1) * batch_size)) idxs |}.
Proof.
  intros Hlen. revert a. induction idxs as [|b idxs IH]; intros a.
  - simpl. rewrite !app_nil_r. now destruct a.
  - cbn [batch_loop]. rewrite batch_body_spec by assumption. cbn [bind].
    rewrite IH. cbn [acc_probs acc_knns acc_dists map].
    now rewrite <- !app_assoc.
Qed.

Lemma num_batches_cover (queries : list Query) :
  (length queries <= num_batches Query queries * batch_size)%nat.
Proof.
  unfold num_batches.
  pose proof (Nat.div_mod_eq (length queries) batch_size) as E.
  assert (H : (length queries mod batch_size < batch_size)%nat)
    by (apply Nat.mod_upper_bound; discriminate).
  nia.
Qed.

(** Summing the negated distances gives minus their sum. *)
Lemma fsum_neg_dists (ds : list fval) :
  fsum (neg_dists ds) = fneg (fsum ds).
Proof.
  unfold fsum, neg_dists.
  replace (Fin 0) with (fneg (Fin 0)) at 1 by (cbn [fneg]; f_equal; lra).
  generalize (Fin 0). induction ds as [|d ds IH]; intros acc;
    [reflexivity|].
  cbn [map fold_left]. rewrite fmul_neg_one, <- fneg_fadd. apply IH.
Qed.

(** The three arrays saved for one temperature. *)
Lemma sweep_temp_spec (queries : list Query) (tokens : list Z) (temp : R) :
  length queries = length tokens ->
  sweep_temp Query search vals queries tokens temp
  = Ok {| all_probs :=
            zip_with (yhat_of Query search vals temp) queries tokens;
          all_knns := map (knns_of Query search) queries;
          all_dists :=
            map (fun q => fneg (fsum (dists_of Query search q))) queries |}.
Proof.
  intros Hlen. unfold sweep_temp.
  rewrite batch_loop_spec by assumption. cbn [bind].
  cbn [acc_probs acc_knns acc_dists app].
  pose proof (num_batches_cover queries) as Hcov.
  rewrite !concat_slices_all.
  - do 2 f_equal. apply map_ext. intros q. apply fsum_neg_dists.
  - now rewrite length_map.
  - now rewrite length_map.
  - rewrite zip_with_length by assumption. exact Hcov.
Qed.

End SweepFacts.

Section SweepOutputs.

Open Scope R_scope.

(** C8 (as amended).  For every temperature of the sweep the three saved
    arrays are aligned with the query set: entry [i] of the first is the
    aggregated retrieval log-probability of query [i] against token [i],
    entry [i] of the second the k neighbour ids of query [i], and entry
    [i] of the third the sum of the negated distances of query [i], that
    is minus the sum of the k distances the search returned. *)
Theorem sweep_outputs_aligned (Query : Type)
    (search : Query -> nat -> list (fval * Z)) (vals : list Z)
    (queries : list Query) (tokens : list Z) (temps : list R)
    (Hvalid : forall q k, Forall (valid_id vals) (map snd (search q k)))
    (Hlen : length queries = length tokens) :
  sweep Query search vals queries tokens temps
  = Ok (map (fun temp =>
               (temp,
                {| all_probs :=
                     zip_with (yhat_of Query search vals temp) queries tokens;
                   all_knns := map (knns_of Query search) queries;
                   all_dists :=
                     map (fun q => fneg (fsum (dists_of Query search q)))
                         queries |}))
            temps).
Proof.
  unfold sweep. rewrite Hlen, Nat.eqb_refl.
  apply mapM_ok. apply Forall_forall. intros temp _.
  now rewrite sweep_temp_spec.
Qed.

Lemma one_hit_valid (q : unit) (k : nat) :
  Forall (valid_id [5%Z]) (map snd (one_hit q k)).
Proof.
  unfold one_hit. rewrite map_repeat. apply Forall_forall.
  intros i Hi. apply repeat_spec in Hi. subst i. unfold valid_id. simpl. lia.
Qed.

Lemma sweep_outputs_aligned_witness :
  sweep unit one_hit [5%Z] [tt] [5%Z] [2]
  = Ok [(2, {| all_probs := [yhat_of unit one_hit [5%Z] 2 tt 5%Z];
               all_knns := [knns_of unit one_hit tt];
               all_dists := [fneg (fsum (dists_of unit one_hit tt))] |})].
Proof.
  exact (sweep_outputs_aligned unit one_hit [5%Z] [tt] [5%Z] [2]
           one_hit_valid eq_refl).
Defined.

Lemma Rsum_repeat (x : R) (k : nat) : Rsum (repeat x k) = INR k * x.
Proof.
  induction k as [|k IH]; [simpl; lra|].
  cbn [repeat Rsum fold_right]. fold (Rsum (repeat x k)).
  rewrite IH, S_INR. lra.
Qed.

(** C8 as stated fails: with every neighbour at distance 1 the saved
    summed-distances entry is -1024, not the sum 1024 of the raw
    distances. *)
Lemma summed_dists_not_raw :
  exists o,
    sweep_temp unit one_hit [5%Z] [tt] [5%Z] 2 = Ok o
    /\ fsum (dists_of unit one_hit tt) = Fin 1024
    /\ all_dists o = [Fin (-1024)]
    /\ all_dists o <> [fsum (dists_of unit one_hit tt)].
Proof.
  assert (E : fsum (dists_of unit one_hit tt) = Fin 1024).
  { unfold dists_of, one_hit. rewrite map_repeat. cbn [fst].
    replace (repeat (Fin 1) topk) with (map Fin (repeat 1 topk))
      by apply map_repeat.
    rewrite fsum_fin, Rsum_repeat. unfold topk.
    rewrite (INR_IZR_INZ 1024). f_equal. simpl. lra. }
  eexists. split.
  - apply (sweep_temp_spec unit one_hit [5%Z] one_hit_valid [tt] [5%Z] 2).
    reflexivity.
  - cbn [all_dists map]. rewrite E. split; [reflexivity|].
    split; [cbn [fneg]; do 2 f_equal; lra|].
    intros H. inversion H. lra.
Qed.

End SweepOutputs.

(** ** Construction of the scorer *)

Section InitFacts.

Open Scope Z_scope.

Lemma init_softmax_batch_ok (o : option Z) :
  0 < softmax_batch_or_maxsize o ->
  exists sb, init_softmax_batch o = Ok sb
             /\ Z.pos sb = softmax_batch_or_maxsize o.
Proof.
  intros H. unfold init_softmax_batch.
  exists (Z.to_pos (softmax_batch_or_maxsize o)). split.
  - now rewrite (proj2 (Z.ltb_lt _ _) H).
  - now apply Z2Pos.id.
Qed.

Lemma init_rejects_iff_negative (v : Z) :
  init_softmax_batch (Some v) = Raise AssertionError <-> v < 0.
Proof.
  unfold init_softmax_batch, softmax_batch_or_maxsize.
  destruct (Z.eqb_spec v 0) as [-> | Hv].
  - simpl. split; [discriminate | lia].
  - destruct (Z.ltb_spec 0 v); split; try discriminate; try lia.
    reflexivity.
Qed.

(** The value kept for [softmax_batch = 0] sends a batch below
    [sys.maxsize] to the single-shot path. *)
Lemma zero_is_maxsize (first : tensor3) (tgt : ids2)
    (Hsize : Z.of_nat (length first * shape_tsz first) < sys_maxsize) :
  exists sb,
    init_softmax_batch (Some 0) = Ok sb
    /\ Z.pos sb = sys_maxsize
    /\ batch_for_softmax sb first tgt = Ok [(first, tgt, true)]
    /\ forall v, init_softmax_batch (Some v) = Raise AssertionError <-> v < 0.
Proof.
  destruct (init_softmax_batch_ok (Some 0)) as [sb [Hinit Hsb]];
    [reflexivity|].
  exists sb. change (softmax_batch_or_maxsize (Some 0)) with sys_maxsize in Hsb.
  repeat split; try assumption; try apply init_rejects_iff_negative.
  unfold batch_for_softmax. rewrite Hsb.
  now rewrite (proj2 (Z.ltb_lt _ _) Hsize).
Qed.

End InitFacts.

(** ** Interpolation of model and retrieval probabilities *)

Section CombineFacts.

Open Scope R_scope.

Lemma zip_fill2 (c d : fval) (t : tensor2) :
  zip_with (zip_with fadd) t (fill2 c (fill2 d t))
  = map (map (fun x => fadd x c)) t.
Proof.
  unfold fill2. induction t as [|r t IH]; simpl; [reflexivity|].
  rewrite IH. f_equal.
  induction r as [|x r IHr]; simpl; [reflexivity | now rewrite IHr].
Qed.

Lemma zip_with2_map {A B A' B' C : Type} (f : A' -> B' -> C) (g : A -> A')
    (h : B -> B') (a : list (list A)) (b : list (list B)) :
  zip_with (zip_with f) (map (map g) a) (map (map h) b)
  = zip_with (zip_with (fun x y => f (g x) (h y))) a b.
Proof.
  revert b. induction a as [|r a IH]; intros [|s b]; simpl;
    try reflexivity.
  rewrite IH. f_equal. revert s.
  induction r as [|x r IHr]; intros [|y s]; simpl; try reflexivity.
  now rewrite IHr.
Qed.

Lemma combine_spec (knn_p vocab_p : tensor2) (coeff : R) :
  same_shape vocab_p knn_p = true ->
  combine_knn_and_vocab_probs knn_p vocab_p coeff
  = Ok (zip_with
          (zip_with (fun v k =>
             logsumexp [fadd v (flog (Fin (1 - coeff)));
                        fadd k (flog (Fin coeff))]))
          vocab_p knn_p).
Proof.
  intros Hs. unfold combine_knn_and_vocab_probs. rewrite Hs.
  f_equal. cbn [map zip_with logsumexp_dim0]. unfold add2.
  rewrite !zip_fill2. apply zip_with2_map.
Qed.

(** The two-way mixture at finite log-probabilities. *)
Lemma logsumexp_pair (a b : R) :
  logsumexp [Fin a; Fin b] = Fin (ln (exp a + exp b)).
Proof.
  change [Fin a; Fin b] with (map Fin [a; b]).
  rewrite logsumexp_fin by discriminate. do 2 f_equal.
  unfold Rsumexp. simpl. lra.
Qed.

(** Inside (0,1) and at finite log-probabilities the entry is the log of
    the mixture of the two probabilities. *)
Lemma log_mixture_interior (v k coeff : R) :
  0 < coeff < 1 ->
  logsumexp [fadd (Fin v) (flog (Fin (1 - coeff)));
             fadd (Fin k) (flog (Fin coeff))]
  = Fin (ln ((1 - coeff) * exp v + coeff * exp k)).
Proof.
  intros H. rewrite !flog_pos by lra. cbn [fadd].
  rewrite logsumexp_pair, !exp_plus, !exp_ln by lra.
  do 2 f_equal. lra.
Qed.

(** C1 (as amended).  For every mixing weight, inside or outside (0,1),
    and every pair of equally shaped tensors the interpolation returns
    elementwise the logsumexp over [vocab_p + log(1-lambda)] and
    [knn_p + log(lambda)]; the weight is not validated and the only
    failure is the shape mismatch of the stack. *)
Theorem combine_is_log_mixture (knn_p vocab_p : tensor2) (coeff : R) :
  combine_knn_and_vocab_probs knn_p vocab_p coeff
  = if same_shape vocab_p knn_p
    then Ok (zip_with
               (zip_with (fun v k =>
                  logsumexp [fadd v (flog (Fin (1 - coeff)));
                             fadd k (flog (Fin coeff))]))
               vocab_p knn_p)
    else Raise RuntimeError.
Proof.
  destruct (same_shape vocab_p knn_p) eqn:Hs.
  - now apply combine_spec.
  - unfold combine_knn_and_vocab_probs. now rewrite Hs.
Qed.

(** C1 as stated fails: at the weight 0, outside the open interval, the
    interpolation raises nothing and returns the model's own
    log-probability. *)
Lemma combine_accepts_zero_weight :
  ~ (0 < 0 < 1)
  /\ combine_knn_and_vocab_probs [[Fin (-1)]] [[Fin (-2)]] 0
     = Ok [[Fin (-2)]].
Proof.
  split; [lra|].
  rewrite combine_spec by reflexivity. cbn [zip_with].
  rewrite flog_zero, flog_pos by lra. cbn [fadd].
  unfold logsumexp. cbn [map fexp]. unfold fsum. cbn [fold_left fadd].
  rewrite flog_pos by (pose proof (exp_pos (-2 + ln (1 - 0))); lra).
  replace (1 - 0) with 1 by lra. rewrite ln_1.
  rewrite (Rplus_0_r (-2)), Rplus_0_r, Rplus_0_l.
  now rewrite ln_exp.
Qed.

End CombineFacts.

(** ** Per-sequence scores *)

Section SliceFacts.

Context {A : Type}.

Lemma clamp_index_nonneg (n i : Z) :
  (0 <= n)%Z -> (0 <= i)%Z -> clamp_index n i = Z.min n i.
Proof.
  intros Hn Hi. unfold clamp_index.
  destruct (Z.ltb_spec i 0); lia.
Qed.

Lemma py_slice_from_skipn (l : list A) (s : Z) :
  (0 <= s)%Z -> py_slice_from l s = skipn (Z.to_nat s) l.
Proof.
  intros Hs. unfold py_slice_from.
  rewrite clamp_index_nonneg by lia.
  destruct (Z.le_gt_cases s (Z.of_nat (length l))) as [H | H].
  - now rewrite Z.min_r by lia.
  - rewrite Z.min_l by lia. rewrite Nat2Z.id.
    rewrite !skipn_all2; [reflexivity | lia | lia].
Qed.

Lemma firstn_clip (m : nat) (l : list A) :
  firstn (Nat.min m (length l)) l = firstn m l.
Proof.
  destruct (Nat.le_gt_cases m (length l)) as [H | H].
  - now rewrite Nat.min_l.
  - rewrite Nat.min_r by lia. now rewrite !firstn_all2 by lia.
Qed.

Lemma py_slice_firstn_skipn (l : list A) (s len : Z) :
  (0 <= s)%Z -> (0 <= len)%Z ->
  py_slice l s (s + len) = firstn (Z.to_nat len) (skipn (Z.to_nat s) l).
Proof.
  intros Hs Hlen. unfold py_slice.
  rewrite !clamp_index_nonneg by lia.
  destruct (Z.le_gt_cases s (Z.of_nat (length l))) as [H | H].
  - rewrite (Z.min_r _ s) by lia.
    rewrite <- (firstn_clip (Z.to_nat len)). f_equal.
    rewrite length_skipn. lia.
  - rewrite !Z.min_l by lia. rewrite Z.sub_diag, Nat2Z.id. simpl.
    rewrite (skipn_all2 l (n := Z.to_nat s)) by lia.
    now rewrite firstn_nil.
Qed.


Lemma filter_length_le (f : A -> bool) (l : list A) :
  length (filter f l) <= length l.
Proof.
  induction l as [|x l IH]; simpl; [lia|]. destruct (f x); simpl; lia.
Qed.

End SliceFacts.

Section ScoreFacts.

Open Scope R_scope.


End ScoreFacts.

(** ** Retrieval fusion and ensembles *)

Section RejectionFacts.

Variable junk : nat -> fval.















End RejectionFacts.


(** ** Ensemble averaging *)

Section EnsembleFacts.

Open Scope R_scope.

Lemma dot_fin (cs ps : list R) :
  dot (map Fin cs) (map Fin ps) = Fin (Rsum (zip_with Rmult cs ps)).
Proof.
  unfold dot. rewrite <- fsum_fin. f_equal.
  revert ps. induction cs as [|c cs IH]; intros [|p ps]; simpl; try reflexivity.
  now rewrite IH.
Qed.

Lemma project_uniform4 :
  project_row pair_coef (repeat (Fin (1 / 4)) 4) = Ok [Fin (1 / 2); Fin (1 / 2)].
Proof.
  unfold project_row, pair_coef. cbn [forallb length repeat Nat.eqb andb map].
  change [Fin (1 / 4); Fin (1 / 4); Fin (1 / 4); Fin (1 / 4)]
    with (map Fin [1 / 4; 1 / 4; 1 / 4; 1 / 4]).
  change [Fin 1; Fin 1; Fin 0; Fin 0] with (map Fin [1; 1; 0; 0]).
  change [Fin 0; Fin 0; Fin 1; Fin 1] with (map Fin [0; 0; 1; 1]).
  rewrite !dot_fin. unfold Rsum. cbn [zip_with fold_right].
  do 2 f_equal; [|f_equal]; f_equal; lra.
Qed.

Lemma log_clamp_half :
  flog (fclamp_min clamp_floor (Fin (1 / 2))) = Fin (ln (1 / 2)).
Proof.
  cbn [fclamp_min]. rewrite Rmax_left by (unfold clamp_floor; lra).
  apply flog_pos. lra.
Qed.

(** With a projection matrix the quantity computed for a slice is a
    log-probability whatever the number of models. *)
Lemma curr_prob_coef_ignores_ensemble (sc : scorer) (c : list row)
    (n n' : nat) (m : model) (bd : tensor3) :
  coef sc = Some c -> curr_prob sc n m bd = curr_prob sc n' m bd.
Proof. intros H. unfold curr_prob. now rewrite H. Qed.

Lemma curr_prob_clustered (n : nat) :
  curr_prob clustered_scorer n uniform4 (decoder_out uniform4)
  = Ok [[[Fin (ln (1 / 2)); Fin (ln (1 / 2))]]].
Proof.
  unfold curr_prob. cbn [coef clustered_scorer decoder_out uniform4 map get_normalized_probs mapM].
  rewrite project_uniform4. cbn [bind map]. now rewrite log_clamp_half.
Qed.

Lemma score_model_clustered (junk : nat -> fval) (n : nat) :
  score_model junk clustered_scorer n uniform4 (target one_token)
  = Ok [[Fin (ln (1 / 2))]].
Proof.
  unfold score_model.
  change (batch_for_softmax (softmax_batch clustered_scorer) (decoder_out uniform4) (target one_token))
    with (Ok [(decoder_out uniform4, target one_token, true)] : result (list item)).
  cbn [bind score_items score_item]. rewrite curr_prob_clustered.
  reflexivity.
Qed.

Lemma ln_half_neg : ln (1 / 2) < 0.
Proof. rewrite <- ln_1. apply ln_increasing; lra. Qed.

(** Without a projection matrix the ensemble accumulates probabilities:
    two copies of the model average to its own probability 1/4. *)
Lemma generate_plain_ensemble :
  generate no_junk plain_scorer [uniform4; uniform4] one_token None
  = Ok [{| tokens := [0%Z]; score := Fin (ln (1 / 4) / 1);
           positional_scores := [Fin (ln (1 / 4))]; knn_probs := None |}].
Proof.
  unfold generate. cbn [length models_loop].
  change (score_model no_junk plain_scorer 2 uniform4 (target one_token))
    with (Ok [[Fin (1 / 4)]] : result tensor2).
  cbn [bind fuse_knn fst snd].
  change (add_ [[Fin (1 / 4)]] [[Fin (1 / 4)]])
    with (Ok [[Fin (1 / 4 + 1 / 4)]] : result tensor2).
  cbn [bind fst snd]. unfold average. cbn [Nat.ltb Nat.leb map].
  rewrite fdiv_fin by (simpl; lra).
  rewrite flog_pos by (simpl; lra).
  replace ((1 / 4 + 1 / 4) / INR 2) with (1 / 4) by (simpl; lra).
  cbn [length seq mapM]. unfold hypo_i. cbn [index_or_raise nth_error repeat bind start_indices one_token target].
  change (py_slice_from [0%Z] 0) with [0%Z].
  change (strip_pad [0%Z] (pad plain_scorer)) with [0%Z].
  cbn [length Z.of_nat]. 
  change (py_slice [Fin (ln (1 / 4))] 0 (0 + Z.pos (Pos.of_succ_nat 0)))
    with [Fin (ln (1 / 4))].
  cbn [bind]. unfold fsum. cbn [fold_left fadd].
  rewrite Rplus_0_l, fdiv_fin by (simpl; lra). reflexivity.
Qed.

(** C4.  With the projection matrix configured, each of two models
    contributes [log(clamp(coef * p))], a log-probability: the sum
    [2 ln(1/2)] is halved and logged again, and the score of the token,
    whose averaged probability is 1/2, is NaN. *)
Theorem generate_clustered_ensemble :
  generate no_junk clustered_scorer [uniform4; uniform4] one_token None
  = Ok [{| tokens := [0%Z]; score := NaN; positional_scores := [NaN];
           knn_probs := None |}].
Proof.
  unfold generate. cbn [length models_loop].
  rewrite !score_model_clustered.
  cbn [bind fuse_knn fst snd]. 
  change (add_ [[Fin (ln (1 / 2))]] [[Fin (ln (1 / 2))]])
    with (Ok [[Fin (ln (1 / 2) + ln (1 / 2))]] : result tensor2).
  cbn [bind fst snd]. unfold average. cbn [Nat.ltb Nat.leb map].
  rewrite fdiv_fin by (simpl; lra).
  rewrite flog_neg by (pose proof ln_half_neg; simpl; lra).
  reflexivity.
Qed.

End EnsembleFacts.

(** ** Chunked and single-shot scoring *)

Section MonadFacts.

Context {A B C : Type}.

Lemma bind_assoc {D : Type} (m : result A) (f : A -> result B)
    (g : B -> result D) :
  bind (bind m f) g = bind m (fun a => bind (f a) g).
Proof. now destruct m. Qed.

Lemma mapM_app (f : A -> result B) (l1 l2 : list A) :
  mapM f (l1 ++ l2)
  = a <- mapM f l1 ;; b <- mapM f l2 ;; Ok (a ++ b).
Proof.
  induction l1 as [|x l1 IH]; simpl.
  - now destruct (mapM f l2).
  - destruct (f x) as [y|e]; [|reflexivity]. simpl. rewrite IH.
    destruct (mapM f l1) as [a|e]; [|reflexivity]. simpl.
    now destruct (mapM f l2).
Qed.

Lemma mapM_length (f : A -> result B) (l : list A) (v : list B) :
  mapM f l = Ok v -> length v = length l.
Proof.
  revert v. induction l as [|x l IH]; intros v H; simpl in H.
  - now inversion H.
  - destruct (f x) as [y|e]; [|discriminate]. simpl in H.
    destruct (mapM f l) as [ys|e]; [|discriminate]. simpl in H.
    inversion H. simpl. f_equal. now apply IH.
Qed.

Lemma mapM_only_runtime (f : A -> result B) (l : list A) :
  (forall x, only_runtime (f x)) -> only_runtime (mapM f l).
Proof.
  intros Hf. induction l as [|x l IH]; intros e H; simpl in H.
  - discriminate.
  - destruct (f x) as [y|e'] eqn:E.
    + simpl in H. destruct (mapM f l) as [ys|e''] eqn:E'; [discriminate|].
      simpl in H. inversion H; subst. now apply IH.
    + simpl in H. inversion H; subst. now apply (Hf x).
Qed.

(** Normalising a run and then gathering it is position by position the
    normalisation followed by the gather, when every exception is the
    same. *)
Lemma mapM_fuse {D : Type} (f : A -> result B) (g : B * C -> result D)
    (xs : list A) (ts : list C) :
  (forall x, only_runtime (f x)) -> (forall y, only_runtime (g y)) ->
  length xs = length ts ->
  (q <- mapM f xs ;; mapM g (combine q ts))
  = mapM (fun xt => p <- f (fst xt) ;; g (p, snd xt)) (combine xs ts).
Proof.
  intros Hf Hg. revert ts. induction xs as [|x xs IH]; intros [|t ts] Hlen;
    simpl in Hlen; try discriminate; [reflexivity|].
  specialize (IH ts ltac:(congruence)).
  cbn [mapM combine fst snd]. destruct (f x) as [p|e] eqn:Efx; [|reflexivity].
  cbn [bind]. rewrite <- IH.
  destruct (mapM f xs) as [q|e] eqn:Eq; cbn [bind mapM combine].
  - reflexivity.
  - destruct (g (p, t)) as [v|e'] eqn:Eg; cbn [bind]; [reflexivity|].
    f_equal. rewrite (Hg _ _ Eg).
    now apply (mapM_only_runtime f xs Hf).
Qed.

End MonadFacts.

Section ChunkFacts.

Variable junk : nat -> fval.
Variable sc : scorer.
Variable n : nat.
Variable m : model.

Lemma gather1_only_runtime (rt : row * Z) :
  only_runtime (gather1 (fst rt) (snd rt)).
Proof.
  unfold gather1. intros e H.
  destruct ((0 <=? snd rt)%Z && (snd rt <? Z.of_nat (length (fst rt)))%Z);
    [destruct (nth_error (fst rt) (Z.to_nat (snd rt)))|]; congruence.
Qed.

Lemma row_prob_only_runtime (r : row) : only_runtime (row_prob sc n m r).
Proof.
  unfold row_prob, project_row. intros e H.
  destruct (coef sc) as [c|]; [|discriminate].
  destruct (forallb (fun cr => length cr =? length (get_normalized_probs m false r)) c);
    simpl in H; congruence.
Qed.

(** The normalised probabilities of a slice with a single leading row. *)
Lemma curr_prob_one (rows : list row) :
  curr_prob sc n m [rows] = q <- mapM (row_prob sc n m) rows ;; Ok [q].
Proof.
  unfold curr_prob, row_prob. destruct (coef sc) as [c|]; cbn [map].
  - induction rows as [|r rows IH]; [reflexivity|].
    cbn [map mapM].
    destruct (project_row c (get_normalized_probs m false r)) as [q|e];
      [|reflexivity].
    cbn [bind] in *.
    destruct (mapM (project_row c) (map (get_normalized_probs m false) rows))
      as [qs|e];
      destruct (mapM _ rows) as [qs'|e']; cbn [bind map] in *;
      try congruence.
    inversion IH. reflexivity.
  - induction rows as [|r rows IH]; [reflexivity|].
    cbn [map mapM bind]. 
    destruct (mapM _ rows) as [qs|e]; cbn [bind] in *; [|discriminate].
    inversion IH. reflexivity.
Qed.

Lemma gather_seq_combine (q : list row) (ts : list Z) :
  length q = length ts ->
  gather_seq q ts = mapM (fun rt => gather1 (fst rt) (snd rt)) (combine q ts).
Proof.
  intros H. unfold gather_seq. now rewrite H, Nat.leb_refl.
Qed.

(** Normalising and gathering one run of positions. *)
Lemma run_probs (rows : list row) (ts : list Z) :
  length rows = length ts ->
  (q <- mapM (row_prob sc n m) rows ;; gather_seq q ts)
  = all_pos sc n m rows ts.
Proof.
  intros Hlen.
  transitivity (q <- mapM (row_prob sc n m) rows ;;
                mapM (fun rt => gather1 (fst rt) (snd rt)) (combine q ts)).
  - destruct (mapM (row_prob sc n m) rows) as [q|e] eqn:E; [|reflexivity].
    cbn [bind]. apply gather_seq_combine.
    rewrite (mapM_length _ _ _ E). exact Hlen.
  - exact (mapM_fuse (row_prob sc n m)
             (fun rt => gather1 (fst rt) (snd rt)) rows ts
             row_prob_only_runtime gather1_only_runtime Hlen).
Qed.

Lemma gather_one (q : list row) (ts : list Z) :
  gather_target_probs [q] [ts] = r <- gather_seq q ts ;; Ok [r].
Proof. reflexivity. Qed.

(** One iteration of the loop on a chunk. *)
Lemma score_item_chunk (orig_target : ids2) (buf : list fval) (idx : nat)
    (rows : list row) (ts : list Z) :
  length rows = length ts ->
  score_item junk sc n m orig_target (PBuffer buf, idx) ([rows], [ts], false)
  = vs <- all_pos sc n m rows ts ;;
    buf' <- assign_slice buf idx (length rows + idx) vs ;;
    Ok (PBuffer buf', length rows + idx).
Proof.
  intros Hlen. unfold score_item. rewrite curr_prob_one.
  rewrite <- (run_probs rows ts Hlen).
  destruct (mapM (row_prob sc n m) rows) as [q|e] eqn:E; [|reflexivity].
  cbn [bind]. rewrite gather_one.
  pose proof (mapM_length _ _ _ E) as Hq.
  destruct (gather_seq q ts) as [r|e]; [|reflexivity].
  cbn [bind length shape_tsz concat]. rewrite app_nil_r, Hq, Nat.mul_1_l.
  reflexivity.
Qed.

Lemma score_item_first (orig_target : ids2) (idx : nat) (bd : tensor3)
    (t : ids2) :
  score_item junk sc n m orig_target (PNone, idx) (bd, t, false)
  = score_item junk sc n m orig_target
      (PBuffer (new_buffer junk (numel orig_target)), idx) (bd, t, false).
Proof. reflexivity. Qed.

Lemma combine_app_eq {A B : Type} (l1 l2 : list A) (k1 k2 : list B) :
  length l1 = length k1 ->
  combine (l1 ++ l2) (k1 ++ k2) = combine l1 k1 ++ combine l2 k2.
Proof.
  revert k1. induction l1 as [|x l1 IH]; intros [|y k1] H; simpl in *;
    try congruence. f_equal. apply IH. congruence.
Qed.

Lemma all_pos_app (r1 r2 : list row) (t1 t2 : list Z) :
  length r1 = length t1 ->
  all_pos sc n m (r1 ++ r2) (t1 ++ t2)
  = a <- all_pos sc n m r1 t1 ;; b <- all_pos sc n m r2 t2 ;; Ok (a ++ b).
Proof.
  intros H. unfold all_pos. rewrite combine_app_eq by assumption.
  apply mapM_app.
Qed.

Lemma all_pos_length (rows : list row) (ts : list Z) (vs : list fval) :
  length rows = length ts -> all_pos sc n m rows ts = Ok vs ->
  length vs = length rows.
Proof.
  intros H E. apply mapM_length in E. rewrite E, length_combine. lia.
Qed.

End ChunkFacts.

Section LoopFacts.

Variable junk : nat -> fval.
Variable sc : scorer.
Variable n : nat.
Variable m : model.
Variable orig_target : ids2.
Variable sb : positive.
Variable flat : list row.
Variable flat_tgt : list Z.
Variable N : nat.
Hypothesis flat_len : length flat = N.
Hypothesis tgt_len : length flat_tgt = N.

Lemma chunk_loop_done (fuel : nat) (s : Z) :
  (Z.of_nat N <= s)%Z -> chunk_loop fuel sb flat flat_tgt s = [].
Proof.
  intros H. destruct fuel; [reflexivity|]. cbn [chunk_loop].
  rewrite flat_len. now rewrite (proj2 (Z.ltb_ge _ _) H).
Qed.

(** Extra fuel changes nothing: the bound [length flat] is never the
    reason the loop stops. *)
Lemma chunk_loop_fuel (fuel fuel' : nat) (s : Z) :
  (0 <= s)%Z -> (Z.of_nat N - s <= Z.of_nat fuel)%Z -> fuel <= fuel' ->
  chunk_loop fuel sb flat flat_tgt s = chunk_loop fuel' sb flat flat_tgt s.
Proof.
  revert fuel' s. induction fuel as [|fuel IH]; intros fuel' s Hs Hf Hle.
  - rewrite !chunk_loop_done by lia. reflexivity.
  - destruct fuel' as [|fuel']; [lia|]. cbn [chunk_loop].
    destruct (s <? Z.of_nat (length flat))%Z; [|reflexivity].
    f_equal. apply IH; lia.
Qed.

Lemma chunk_slice {A : Type} (l : list A) (k : nat) :
  py_slice l (Z.of_nat k) (Z.of_nat k + Z.pos sb)
  = firstn (Pos.to_nat sb) (skipn k l).
Proof.
  rewrite py_slice_firstn_skipn by lia. now rewrite Nat2Z.id.
Qed.

(** The loop over the chunks fills the buffer from its offset on with the
    target probabilities of the remaining positions. *)
Lemma score_chunks (fuel : nat) :
  forall (s : Z) (k : nat) (buf : list fval),
    (s = Z.of_nat k /\ k <= N) \/ (k = N /\ (Z.of_nat N <= s)%Z) ->
    N - k <= fuel -> length buf = N ->
    score_items junk sc n m orig_target (PBuffer buf, k)
      (chunk_loop fuel sb flat flat_tgt s)
    = vs <- all_pos sc n m (skipn k flat) (skipn k flat_tgt) ;;
      Ok (PBuffer (firstn k buf ++ vs), N).
Proof.
  assert (Hend : forall buf, length buf = N ->
            Ok (PBuffer buf, N)
            = vs <- all_pos sc n m (skipn N flat) (skipn N flat_tgt) ;;
              Ok (PBuffer (firstn N buf ++ vs), N)).
  { intros buf Hb. rewrite (skipn_all2 flat) by lia.
    cbn [all_pos combine mapM bind].
    now rewrite app_nil_r, firstn_all2 by lia. }
  induction fuel as [|fuel IH]; intros s k buf Hs Hfuel Hbuf.
  - assert (k = N) by lia. subst k. cbn [chunk_loop score_items].
    now apply Hend.
  - destruct Hs as [[-> Hk] | [-> Hs]];
      [| rewrite chunk_loop_done by assumption; now apply Hend].
    cbn [chunk_loop]. rewrite flat_len.
    destruct (Z.ltb_spec (Z.of_nat k) (Z.of_nat N)) as [Hlt | Hge];
      [| assert (k = N) by lia; subst k; now apply Hend].
    cbn [score_items]. rewrite !chunk_slice.
    set (c := Pos.to_nat sb).
    assert (Hc : 1 <= c) by (subst c; lia).
    set (rows := firstn c (skipn k flat)).
    set (ts := firstn c (skipn k flat_tgt)).
    assert (Hrows : length rows = Nat.min c (N - k))
      by (subst rows; now rewrite length_firstn, length_skipn, flat_len).
    assert (Hts : length ts = Nat.min c (N - k))
      by (subst ts; now rewrite length_firstn, length_skipn, tgt_len).
    rewrite score_item_chunk by congruence.
    assert (Hf : skipn k flat = rows ++ skipn c (skipn k flat))
      by (subst rows; symmetry; apply firstn_skipn).
    assert (Ht : skipn k flat_tgt = ts ++ skipn c (skipn k flat_tgt))
      by (subst ts; symmetry; apply firstn_skipn).
    rewrite Hf, Ht, all_pos_app by congruence.
    destruct (all_pos sc n m rows ts) as [vs|e] eqn:E; [|reflexivity].
    cbn [bind].
    pose proof (all_pos_length sc n m rows ts vs ltac:(congruence) E) as Hvs.
    unfold assign_slice, slice.
    rewrite length_firstn, length_skipn, Hbuf, Hvs, Hrows.
    replace (Nat.min (Nat.min c (N - k) + k - k) (N - k) =? Nat.min c (N - k))
      with true by (symmetry; apply Nat.eqb_eq; lia).
    cbn [bind].
    rewrite !skipn_skipn.
    rewrite (IH (Z.of_nat k + Z.pos sb)%Z (Nat.min c (N - k) + k)).
    + assert (Hpre : firstn (Nat.min c (N - k) + k)
                       (firstn k buf ++ vs
                          ++ skipn (Nat.min c (N - k) + k) buf)
                     = firstn k buf ++ vs).
      { rewrite app_assoc.
        rewrite firstn_app.
        rewrite length_app, length_firstn, Hbuf, Hvs, Hrows.
        replace (Nat.min c (N - k) + k - (Nat.min k N + Nat.min c (N - k)))
          with 0 by lia.
        rewrite firstn_O, app_nil_r.
        apply firstn_all2.
        rewrite length_app, length_firstn, Hbuf, Hvs, Hrows. lia. }
      rewrite Hpre.
      destruct (Nat.le_gt_cases c (N - k)) as [Hfit | Hrag].
      * rewrite (Nat.min_l c) by assumption.
        destruct (all_pos sc n m (skipn (c + k) flat) (skipn (c + k) flat_tgt));
          [|reflexivity].
        cbn [bind]. now rewrite app_assoc.
      * rewrite (Nat.min_r c) by lia.
        replace (N - k + k) with N by lia.
        rewrite (skipn_all2 flat (n := c + k)) by lia.
        rewrite (skipn_all2 flat (n := N)) by lia.
        unfold all_pos. cbn [combine mapM bind]. now rewrite !app_nil_r.
    + destruct (Nat.le_gt_cases c (N - k)) as [Hfit | Hrag].
      * left. rewrite (Nat.min_l c) by assumption. subst c. lia.
      * right. rewrite (Nat.min_r c) by lia. subst c. lia.
    + lia.
    + rewrite !length_app, length_firstn, length_skipn, Hbuf, Hvs, Hrows. lia.
Qed.

(** The first chunk allocates the buffer. *)
Lemma score_chunks_first (fuel : nat) :
  1 <= N -> 1 <= fuel ->
  score_items junk sc n m orig_target (PNone, 0)
    (chunk_loop fuel sb flat flat_tgt 0)
  = score_items junk sc n m orig_target
      (PBuffer (new_buffer junk (numel orig_target)), 0)
      (chunk_loop fuel sb flat flat_tgt 0).
Proof.
  intros HN Hfuel. destruct fuel as [|fuel]; [lia|]. cbn [chunk_loop].
  rewrite flat_len.
  replace (0 <? Z.of_nat N)%Z with true by (symmetry; apply Z.ltb_lt; lia).
  reflexivity.
Qed.

End LoopFacts.

Section PathFacts.

Variable junk : nat -> fval.
Variable sc : scorer.
Variable n : nat.
Variable m : model.
Variable tgt : ids2.

Lemma concat_length_rect {A : Type} (tsz : nat) (t : list (list A)) :
  rectangular tsz t -> length (concat t) = length t * tsz.
Proof.
  induction 1 as [|r t Hr _ IH]; [reflexivity|].
  simpl. rewrite length_app, IH, Hr. reflexivity.
Qed.

Lemma concat_length_same {A B : Type} (xs : list (list A))
    (ys : list (list B)) :
  Forall2 (fun r t => length r = length t) xs ys ->
  length (concat xs) = length (concat ys).
Proof.
  induction 1 as [|r t xs ys Hrt _ IH]; [reflexivity|].
  simpl. rewrite !length_app. congruence.
Qed.

(** The flags of the yielded slices all equal the one comparison. *)
Lemma chunk_loop_flags (fuel : nat) (sb : positive) (flat : list row)
    (flat_tgt : list Z) (s : Z) :
  Forall (fun it : item => snd it = false)
         (chunk_loop fuel sb flat flat_tgt s).
Proof.
  revert s. induction fuel as [|fuel IH]; intros s; cbn [chunk_loop].
  - constructor.
  - destruct (s <? Z.of_nat (length flat))%Z; constructor; auto.
Qed.

Lemma batch_for_softmax_flags (sb : positive) (items : list item) :
  batch_for_softmax sb (decoder_out m) tgt = Ok items ->
  Forall (fun it : item =>
            snd it
            = (Z.of_nat (length (decoder_out m) * shape_tsz (decoder_out m)) <? Z.pos sb)%Z)
         items.
Proof.
  unfold batch_for_softmax.
  destruct (Z.of_nat (length (decoder_out m) * shape_tsz (decoder_out m)) <? Z.pos sb)%Z.
  - intros H. inversion H. repeat constructor.
  - destruct (length (concat tgt) =? length (concat (decoder_out m)));
      [|discriminate].
    intros H. inversion H. apply chunk_loop_flags.
Qed.

(** The chunked path computes the target probabilities of the flattened
    positions and reshapes them. *)
Lemma score_model_chunked (sb : positive) :
  Forall2 (fun r t => length r = length t) (decoder_out m) tgt ->
  (Z.pos sb <= Z.of_nat (length (decoder_out m) * shape_tsz (decoder_out m)))%Z ->
  length (concat (decoder_out m)) = length (decoder_out m) * shape_tsz (decoder_out m) ->
  score_model junk (with_softmax_batch sc sb) n m tgt
  = vs <- all_pos sc n m (concat (decoder_out m)) (concat tgt) ;;
    Ok (unflatten tgt vs).
Proof.
  intros Hshape Hsb Hrect. unfold score_model, batch_for_softmax.
  cbn [softmax_batch with_softmax_batch].
  rewrite (proj2 (Z.ltb_ge _ _) Hsb).
  pose proof (concat_length_same (decoder_out m) tgt Hshape) as Hlen.
  rewrite <- Hlen, Nat.eqb_refl. cbn [bind].
  assert (HN : 1 <= length (concat (decoder_out m))) by lia.
  rewrite (score_chunks_first junk (with_softmax_batch sc sb) n m tgt sb
             (concat (decoder_out m)) (concat tgt) (length (concat (decoder_out m))) eq_refl
             (eq_sym Hlen))
    by assumption.
  rewrite (score_chunks junk (with_softmax_batch sc sb) n m tgt sb
             (concat (decoder_out m)) (concat tgt) (length (concat (decoder_out m))) eq_refl
             (eq_sym Hlen) (length (concat (decoder_out m))) 0%Z 0);
    [ | left; split; [reflexivity | lia] | lia
      | unfold new_buffer, numel; now rewrite length_map, length_seq ].
  cbn [skipn firstn app].
  change (all_pos (with_softmax_batch sc sb) n m (concat (decoder_out m)) (concat tgt))
    with (all_pos sc n m (concat (decoder_out m)) (concat tgt)).
  now destruct (all_pos sc n m (concat (decoder_out m)) (concat tgt)).
Qed.

Lemma unflatten_app {A B : Type} (t : list B) (ts : list (list B))
    (a b : list A) :
  length a = length t ->
  unflatten (t :: ts) (a ++ b) = a :: unflatten ts b.
Proof.
  intros H. cbn [unflatten]. rewrite <- H.
  rewrite firstn_app, Nat.sub_diag, firstn_O, app_nil_r, firstn_all.
  rewrite skipn_app, Nat.sub_diag, skipn_all. reflexivity.
Qed.

(** Row by row or flattened, the target probabilities are the same. *)
Lemma all_pos_rows (xs : tensor3) (ys : ids2) :
  Forall2 (fun r t => length r = length t) xs ys ->
  mapM (fun pt => all_pos sc n m (fst pt) (snd pt)) (combine xs ys)
  = vs <- all_pos sc n m (concat xs) (concat ys) ;; Ok (unflatten ys vs).
Proof.
  induction 1 as [|r t xs ys Hrt _ IH]; [reflexivity|].
  cbn [combine mapM concat fst snd]. rewrite all_pos_app by assumption.
  rewrite IH.
  destruct (all_pos sc n m r t) as [a|e] eqn:E; [|reflexivity].
  cbn [bind].
  destruct (all_pos sc n m (concat xs) (concat ys)) as [b|e];
    [|reflexivity].
  cbn [bind]. rewrite unflatten_app; [reflexivity|].
  rewrite (all_pos_length sc n m r t a Hrt E). exact Hrt.
Qed.

(** Without a projection matrix the single-shot path gathers, row by row,
    what [all_pos] computes. *)
Lemma gather_rows_plain (xs : tensor3) (ys : ids2) :
  coef sc = None ->
  Forall2 (fun r t => length r = length t) xs ys ->
  mapM (fun pt => gather_seq (fst pt) (snd pt))
       (combine (map (map (get_normalized_probs m (n =? 1))) xs) ys)
  = mapM (fun pt => all_pos sc n m (fst pt) (snd pt)) (combine xs ys).
Proof.
  intros Hc. induction 1 as [|r t xs ys Hrt _ IH]; [reflexivity|].
  cbn [map combine mapM fst snd]. rewrite IH. f_equal.
  rewrite <- (run_probs sc n m r t Hrt).
  replace (mapM (row_prob sc n m) r)
    with (Ok (map (get_normalized_probs m (n =? 1)) r) : result (list row)).
  - reflexivity.
  - symmetry. apply mapM_ok. apply Forall_forall. intros x _.
    unfold row_prob. now rewrite Hc.
Qed.

Lemma score_model_single (sb : positive) :
  Forall2 (fun r t => length r = length t) (decoder_out m) tgt ->
  (Z.of_nat (length (decoder_out m) * shape_tsz (decoder_out m)) < Z.pos sb)%Z ->
  coef sc = None \/ length (decoder_out m) = 1 ->
  score_model junk (with_softmax_batch sc sb) n m tgt
  = vs <- all_pos sc n m (concat (decoder_out m)) (concat tgt) ;;
    Ok (unflatten tgt vs).
Proof.
  intros Hshape Hsb Hcase. unfold score_model, batch_for_softmax.
  cbn [softmax_batch with_softmax_batch].
  rewrite (proj2 (Z.ltb_lt _ _) Hsb). cbn [bind score_items score_item].
  rewrite <- (all_pos_rows (decoder_out m) tgt Hshape).
  pose proof (Forall2_length Hshape) as Hlen.
  destruct Hcase as [Hc | Hone].
  - unfold curr_prob. cbn [coef with_softmax_batch]. rewrite Hc.
    cbn [bind]. unfold gather_target_probs.
    rewrite length_map, <- Hlen, Nat.leb_refl.
    rewrite (gather_rows_plain (decoder_out m) tgt Hc Hshape).
    now destruct (mapM _ (combine (decoder_out m) tgt)).
  - destruct (decoder_out m) as [|rows [|r2 rest]]; try discriminate.
    destruct tgt as [|ts [|t2 trest]]; try discriminate.
    inversion Hshape as [|? ? ? ? Hrt _]; subst.
    change (curr_prob (with_softmax_batch sc sb) n m [rows])
      with (curr_prob sc n m [rows]).
    rewrite curr_prob_one. cbn [combine mapM fst snd].
    rewrite <- (run_probs sc n m rows ts Hrt).
    destruct (mapM (row_prob sc n m) rows) as [q|e]; [|reflexivity].
    cbn [bind]. rewrite gather_one.
    now destruct (gather_seq q ts).
Qed.

End PathFacts.

Section ChunkedVsSingle.

Open Scope Z_scope.

(** C3 (as amended).  When no projection matrix is configured, or the
    batch holds a single sequence, scoring with a softmax-batch limit at
    most batch x seq (chunked path) and with a limit above it (single-shot
    path) give the same per-token target probabilities, or fail alike; and
    whatever the limit, all slices yielded in one call carry the flag of
    the one comparison of batch x seq with the limit. *)
Theorem chunked_equals_single_shot (junk : nat -> fval) (sc : scorer)
    (n : nat) (m : model) (tgt : ids2) (big small : positive)
    (Hshape : Forall2 (fun r t => length r = length t) (decoder_out m) tgt)
    (Hrect : rectangular (shape_tsz (decoder_out m)) (decoder_out m))
    (Hcoef : coef sc = None \/ length (decoder_out m) = 1%nat)
    (Hbig : Z.of_nat (length (decoder_out m) * shape_tsz (decoder_out m))
            < Z.pos big)
    (Hsmall : Z.pos small
              <= Z.of_nat (length (decoder_out m)
                           * shape_tsz (decoder_out m))) :
  score_model junk (with_softmax_batch sc small) n m tgt
  = score_model junk (with_softmax_batch sc big) n m tgt
  /\ forall sb items,
       batch_for_softmax sb (decoder_out m) tgt = Ok items ->
       Forall (fun it : item =>
                 snd it
                 = (Z.of_nat (length (decoder_out m)
                              * shape_tsz (decoder_out m)) <? Z.pos sb))
              items.
Proof.
  split.
  - rewrite score_model_chunked, score_model_single; try assumption.
    + reflexivity.
    + now apply concat_length_rect.
  - intros sb items. apply batch_for_softmax_flags.
Qed.

Lemma chunked_equals_single_shot_witness :
  score_model no_junk (with_softmax_batch plain_scorer 1) 2 uniform4_pair
    [[0]; [1]]
  = score_model no_junk (with_softmax_batch plain_scorer 1024) 2
      uniform4_pair [[0]; [1]].
Proof.
  apply (chunked_equals_single_shot no_junk plain_scorer 2 uniform4_pair
           [[0]; [1]] 1024 1).
  - repeat constructor.
  - repeat constructor.
  - left. reflexivity.
  - reflexivity.
  - discriminate.
Defined.

(** C3 as stated fails: with the projection matrix and a batch of two
    sequences the single-shot path stops at the assertion of line 113,
    while the chunked path scores both tokens. *)
Lemma single_shot_asserts_with_coef :
  (1 <= Z.of_nat (length (decoder_out uniform4_pair)
                  * shape_tsz (decoder_out uniform4_pair)) < 1024)
  /\ score_model no_junk (with_softmax_batch clustered_scorer 1024) 1
       uniform4_pair [[0]; [0]]
     = Raise AssertionError
  /\ score_model no_junk (with_softmax_batch clustered_scorer 1) 1
       uniform4_pair [[0]; [0]]
     = Ok [[Fin (ln (1 / 2))]; [Fin (ln (1 / 2))]].
Proof.
  split; [simpl; lia|]. split; [reflexivity|].
  rewrite score_model_chunked.
  - unfold all_pos, pos_prob, row_prob.
    cbn [coef clustered_scorer decoder_out uniform4_pair uniform4 concat app
         combine mapM fst snd get_normalized_probs].
    rewrite project_uniform4. cbn [bind map]. rewrite log_clamp_half.
    reflexivity.
  - repeat constructor.
  - simpl. lia.
  - reflexivity.
Qed.

End ChunkedVsSingle.

Import ScorerRest.

(** * Further properties *)

(** ** The converter and the aggregation of the sweep *)

Section AggregationFacts.

Open Scope R_scope.

Lemma fold_fexp_fin_inv (xs : list fval) :
  forall acc s,
    fold_left fadd (map fexp xs) acc = Fin s ->
    (exists a, acc = Fin a) /\ Forall finite_or_ninf xs.
Proof.
  induction xs as [|x xs IH]; intros acc s H; cbn [map fold_left] in H.
  - split; [now exists s | constructor].
  - destruct (IH _ _ H) as [[a Ha] Hxs].
    destruct acc as [r| | |], x as [y| | |]; cbn [fadd fexp] in Ha;
      try discriminate;
      (split; [now exists r | constructor; [exact I | exact Hxs]]).
Qed.

Lemma fold_fexp_mass (xs : list fval) :
  Forall finite_or_ninf xs ->
  forall a, fold_left fadd (map fexp xs) (Fin a)
            = Fin (a + Rsum (map mass xs)).
Proof.
  induction 1 as [|x xs Hx _ IH]; intros a; cbn [map fold_left].
  - f_equal. unfold Rsum. simpl. lra.
  - destruct x as [y| | |]; try contradiction; cbn [fexp fadd mass];
      rewrite IH; f_equal; cbn [Rsum fold_right]; unfold Rsum; lra.
Qed.

Lemma fsum_fexp_mass (xs : list fval) :
  Forall finite_or_ninf xs ->
  fsum (map fexp xs) = Fin (Rsum (map mass xs)).
Proof.
  intros H. unfold fsum. rewrite fold_fexp_mass by assumption.
  f_equal. lra.
Qed.

Lemma mass_nonneg (x : fval) : 0 <= mass x.
Proof. destruct x; cbn [mass]; try lra. left. apply exp_pos. Qed.

Lemma Rsum_mass_nonneg (xs : list fval) : 0 <= Rsum (map mass xs).
Proof.
  induction xs as [|x xs IH]; [unfold Rsum; simpl; lra|].
  cbn [map Rsum fold_right]. fold (Rsum (map mass xs)).
  pose proof (mass_nonneg x). lra.
Qed.

Lemma mass_le_sum (xs : list fval) (j : nat) (x : fval) :
  nth_error xs j = Some x -> mass x <= Rsum (map mass xs).
Proof.
  revert j. induction xs as [|x0 xs IH]; intros [|j] H; simpl in H;
    try discriminate; cbn [map Rsum fold_right]; fold (Rsum (map mass xs)).
  - inversion H; subst. pose proof (Rsum_mass_nonneg xs). lra.
  - specialize (IH j H). pose proof (mass_nonneg x0). lra.
Qed.

Lemma zip_fadd_keeps (ps ms : list fval) :
  Forall finite_or_ninf ps -> Forall (fun b => exists r, b = Fin r) ms ->
  Forall finite_or_ninf (zip_with fadd ps ms).
Proof.
  intros Hps. revert ms. induction Hps as [|p ps Hp _ IH]; intros ms Hms.
  - constructor.
  - destruct Hms as [|b ms [r ->] Hms]; [constructor|].
    cbn [zip_with]. constructor; [|now apply IH].
    destruct p; try contradiction; exact I.
Qed.

(** X4.  The retrieval log-probability is never below the
    log-probability of a candidate whose id equals the target. *)
Theorem yhat_knn_prob_ge_match (temp : R) (dists : list fval)
    (retrieved : list Z) (t : Z) (j : nat) (p : R)
    (HT : temp <> 0)
    (Hlen : length retrieved = length dists)
    (Hj : nth_error retrieved j = Some t)
    (Hp : nth_error (probs_row temp dists) j = Some (Fin p)) :
  exists r,
    yhat_knn_prob_row (probs_row temp dists) (index_mask_row retrieved t)
    = Fin r
    /\ p <= r.
Proof.
  unfold probs_row in *.
  set (xs := map (fun d => fdiv32 d (Fin temp)) (neg_dists dists)) in *.
  unfold log_softmax in *.
  rewrite nth_error_map in Hp.
  destruct (nth_error xs j) as [xj|] eqn:Exj; [|discriminate].
  cbn [option_map] in Hp. injection Hp as Hp.
  destruct (logsumexp xs) as [l| | |] eqn:EL;
    try (destruct xj; cbn in Hp; discriminate).
  assert (Hxs : Forall finite_or_ninf xs).
  { unfold logsumexp in EL.
    destruct (fsum (map fexp xs)) as [s0| | |] eqn:ES;
      try (cbn in EL; discriminate).
    unfold fsum in ES. now apply fold_fexp_fin_inv in ES. }
  assert (Hprobs : Forall finite_or_ninf (map (fun x => fsub x (Fin l)) xs)).
  { apply Forall_forall. intros q Hq. apply in_map_iff in Hq.
    destruct Hq as [x [<- Hx]].
    apply (proj1 (Forall_forall _ _) Hxs) in Hx.
    destruct x; try contradiction; exact I. }
  assert (Hmask : Forall (fun b => exists r, b = Fin r)
                    (index_mask_row retrieved t)).
  { rewrite index_mask_row_spec. apply Forall_forall. intros b Hb.
    apply in_map_iff in Hb. destruct Hb as [v [<- _]].
    unfold mask_bias. destruct (v =? t)%Z; eexists; reflexivity. }
  pose proof (zip_fadd_keeps _ _ Hprobs Hmask) as Hzs.
  unfold yhat_knn_prob_row, logsumexp.
  rewrite fsum_fexp_mass by assumption.
  assert (Hz : nth_error (zip_with fadd (map (fun x => fsub x (Fin l)) xs)
                            (index_mask_row retrieved t)) j
               = Some (Fin (p + 0))).
  { rewrite (zip_with_nth_error fadd _ _ j (Fin p) (Fin 0)).
    - reflexivity.
    - rewrite nth_error_map, Exj. cbn [option_map]. now rewrite Hp.
    - rewrite index_mask_row_spec, nth_error_map, Hj. cbn [option_map].
      unfold mask_bias. now rewrite Z.eqb_refl. }
  pose proof (mass_le_sum _ _ _ Hz) as Hge. cbn [mass] in Hge.
  pose proof (exp_pos (p + 0)) as Hpos.
  rewrite flog_pos by lra.
  eexists. split; [reflexivity|].
  replace (p + 0) with p in * by lra.
  rewrite <- (ln_exp p) at 1.
  destruct Hge as [Hlt | Heq].
  - left. apply ln_increasing; [apply exp_pos | exact Hlt].
  - right. now rewrite Heq.
Qed.

End AggregationFacts.

Lemma yhat_knn_prob_ge_match_witness :
  exists p r,
    yhat_knn_prob_row (probs_row 2 [Fin 1; Fin 3]%R)
      (index_mask_row [5; 9]%Z 5%Z)
    = Fin r
    /\ (p <= r)%R.
Proof.
  exists (-1 * 1 / 2 - ln (Rsumexp (map (fun d => -1 * d / 2) [1; 3])))%R.
  apply (yhat_knn_prob_ge_match 2 [Fin 1; Fin 3]%R [5; 9]%Z 5%Z 0).
  - lra.
  - reflexivity.
  - reflexivity.
  - change [Fin 1; Fin 3]%R with (map Fin [1; 3]%R).
    rewrite probs_row_fin;
      [reflexivity | lra | discriminate
       | repeat constructor; apply small_in_range; try lra;
         rewrite Rabs_pos_eq; lra].
Defined.

(** ** Batching and indexing of the sweep *)

Section BatchFacts.

(** X5.  The neighbour ids and the summed distances saved by the sweep
    are the same for every temperature; only the log-probabilities
    depend on it. *)
Theorem sweep_temp_independent (Query : Type)
    (search : Query -> nat -> list (fval * Z)) (vals : list Z)
    (queries : list Query) (tokens : list Z) (temp temp' : R)
    (Hvalid : forall q k, Forall (valid_id vals) (map snd (search q k)))
    (Hlen : length queries = length tokens) :
  exists o o',
    sweep_temp Query search vals queries tokens temp = Ok o
    /\ sweep_temp Query search vals queries tokens temp' = Ok o'
    /\ all_knns o = all_knns o'
    /\ all_dists o = all_dists o'.
Proof.
  rewrite !(sweep_temp_spec Query search vals Hvalid) by assumption.
  do 2 eexists. repeat split; reflexivity.
Qed.

Lemma sweep_temp_independent_witness :
  exists o o',
    sweep_temp unit one_hit [5%Z] [tt] [5%Z] 2 = Ok o
    /\ sweep_temp unit one_hit [5%Z] [tt] [5%Z] 3 = Ok o'
    /\ all_knns o = all_knns o'
    /\ all_dists o = all_dists o'.
Proof.
  exact (sweep_temp_independent unit one_hit [5%Z] [tt] [5%Z] 2%R 3%R
           one_hit_valid eq_refl).
Defined.

Lemma slice_length {A : Type} (l : list A) (a b : nat) :
  length (slice l a b) = Nat.min (b - a) (length l - a).
Proof. unfold slice. now rewrite length_firstn, length_skipn. Qed.

(** X6.  The batches before the last hold exactly [batch_size] queries;
    the last one holds the remainder of the division, so it is empty when
    the number of queries is a multiple of [batch_size]. *)
Theorem batch_sizes (Query : Type) (queries : list Query) (b : nat) :
  (b < num_batches Query queries - 1 ->
   length (slice queries (b * batch_size) ((b + 1) * batch_size))
   = batch_size)
  /\ (b = num_batches Query queries - 1 ->
      length (slice queries (b * batch_size) ((b + 1) * batch_size))
      = length queries mod batch_size).
Proof.
  unfold num_batches. rewrite slice_length.
  pose proof (Nat.div_mod_eq (length queries) batch_size) as E.
  assert (H : length queries mod batch_size < batch_size)
    by (apply Nat.mod_upper_bound; discriminate).
  set (n := length queries) in *. set (w := batch_size) in *.
  set (d := n / w) in *. set (r := n mod w) in *.
  split; intros Hb.
  - assert (b + 1 <= d) by lia. nia.
  - assert (b = d) by lia. subst b. nia.
Qed.

(** X7.  Indexing the datastore values raises exactly at an index
    outside [-N, N); a negative index inside it reads from the end, so
    that the id -1 reads the last stored value. *)
Theorem np_index_bounds (vals : list Z) (i : Z) :
  (np_index vals i = Raise IndexError <-> ~ valid_id vals i)
  /\ ((- Z.of_nat (length vals) <= i < 0)%Z ->
      np_index vals i = np_index vals (i + Z.of_nat (length vals)))
  /\ (vals <> [] -> np_index vals (-1) = Ok (last vals 0%Z)).
Proof.
  assert (Hwrap : (- Z.of_nat (length vals) <= i < 0)%Z ->
            np_index vals i = np_index vals (i + Z.of_nat (length vals))).
  { intros Hi. unfold np_index.
    replace (i <? 0)%Z with true by (symmetry; apply Z.ltb_lt; lia).
    replace (i + Z.of_nat (length vals) <? 0)%Z with false
      by (symmetry; apply Z.ltb_ge; lia).
    reflexivity. }
  split; [|split; [exact Hwrap|]].
  - split.
    + intros E Hv.
      pose proof (np_index_ok vals i Hv) as Hok. congruence.
    + intros Hv. unfold np_index, valid_id in *.
      set (n := Z.of_nat (length vals)) in *.
      destruct (Z.ltb_spec i 0).
      * replace ((0 <=? i + n)%Z && (i + n <? n)%Z) with false;
          [reflexivity|].
        symmetry. apply andb_false_iff.
        destruct (Z.leb_spec 0 (i + n)); [|now left]. lia.
      * replace ((0 <=? i)%Z && (i <? n)%Z) with false; [reflexivity|].
        symmetry. apply andb_false_iff. right. apply Z.ltb_ge. lia.
  - intros Hne.
    assert (Hlen : (1 <= length vals)%nat)
      by (destruct vals; [congruence | simpl; lia]).
    rewrite np_index_ok by (unfold valid_id; lia).
    f_equal. unfold val_at. cbn [Z.ltb Z.compare].
    replace (Z.to_nat (-1 + Z.of_nat (length vals)))
      with (length vals - 1)%nat by lia.
    clear. induction vals as [|x [|y vals] IH]; try reflexivity.
    cbn [length last] in *. rewrite <- IH.
    replace (S (S (length vals)) - 1)%nat with (S (length vals)) by lia.
    replace (S (length vals) - 1)%nat with (length vals) by lia.
    reflexivity.
Qed.

End BatchFacts.

Lemma batch_sizes_witness :
  length (slice [tt; tt; tt] (0 * batch_size) ((0 + 1) * batch_size))
  = length [tt; tt; tt] mod batch_size.
Proof.
  apply (proj2 (batch_sizes unit [tt; tt; tt] 0)). reflexivity.
Defined.

Lemma np_index_bounds_witness :
  np_index [4; 7]%Z (-1) = Ok (last [4; 7]%Z 0%Z).
Proof.
  apply (proj2 (proj2 (np_index_bounds [4; 7]%Z 0))). discriminate.
Defined.

(** ** The slices of batch_for_softmax *)

Section TilingFacts.

Variable sb : positive.

Lemma py_slice_chunk {A : Type} (l : list A) (k : nat) :
  py_slice l (Z.of_nat k) (Z.of_nat k + Z.pos sb)
  = firstn (Pos.to_nat sb) (skipn k l).
Proof.
  rewrite py_slice_firstn_skipn by lia. now rewrite Nat2Z.id.
Qed.

Lemma chunk_loop_step (fuel : nat) (flat : list row) (flat_tgt : list Z)
    (k : nat) :
  k < length flat ->
  chunk_loop (S fuel) sb flat flat_tgt (Z.of_nat k)
  = ([firstn (Pos.to_nat sb) (skipn k flat)],
     [firstn (Pos.to_nat sb) (skipn k flat_tgt)], false)
      :: chunk_loop fuel sb flat flat_tgt (Z.of_nat (k + Pos.to_nat sb)).
Proof.
  intros Hk. cbn [chunk_loop].
  replace (Z.of_nat k <? Z.of_nat (length flat))%Z with true
    by (symmetry; apply Z.ltb_lt; lia).
  rewrite !py_slice_chunk. do 2 f_equal. lia.
Qed.

Lemma chunk_loop_rows (fuel : nat) (flat : list row) (flat_tgt : list Z) :
  forall k,
    length flat - k <= fuel ->
    concat (map (fun it : item => concat (fst (fst it)))
                (chunk_loop fuel sb flat flat_tgt (Z.of_nat k)))
    = skipn k flat.
Proof.
  induction fuel as [|fuel IH]; intros k Hf.
  - cbn [chunk_loop map concat]. symmetry. apply skipn_all2. lia.
  - destruct (Nat.lt_ge_cases k (length flat)) as [Hk | Hk].
    + rewrite chunk_loop_step by assumption.
      cbn [map concat fst]. rewrite IH by lia.
      rewrite app_nil_r, Nat.add_comm, <- skipn_skipn.
      apply firstn_skipn.
    + rewrite (chunk_loop_done sb flat flat_tgt (length flat) eq_refl)
        by lia.
      cbn [map concat]. symmetry. apply skipn_all2. lia.
Qed.

Lemma chunk_loop_tgts (fuel : nat) (flat : list row) (flat_tgt : list Z) :
  length flat_tgt = length flat ->
  forall k,
    length flat - k <= fuel ->
    concat (map (fun it : item => concat (snd (fst it)))
                (chunk_loop fuel sb flat flat_tgt (Z.of_nat k)))
    = skipn k flat_tgt.
Proof.
  intros Hlen. induction fuel as [|fuel IH]; intros k Hf.
  - cbn [chunk_loop map concat]. symmetry. apply skipn_all2. lia.
  - destruct (Nat.lt_ge_cases k (length flat)) as [Hk | Hk].
    + rewrite chunk_loop_step by assumption.
      cbn [map concat fst snd]. rewrite IH by lia.
      rewrite app_nil_r, Nat.add_comm, <- skipn_skipn.
      apply firstn_skipn.
    + rewrite (chunk_loop_done sb flat flat_tgt (length flat) eq_refl)
        by lia.
      cbn [map concat]. symmetry. apply skipn_all2. lia.
Qed.

Lemma chunk_loop_sizes (fuel : nat) (flat : list row) (flat_tgt : list Z) :
  length flat_tgt = length flat ->
  forall k,
    Forall (fun it : item =>
              exists rows ts,
                it = ([rows], [ts], false)
                /\ length rows = length ts
                /\ 1 <= length rows <= Pos.to_nat sb)
           (chunk_loop fuel sb flat flat_tgt (Z.of_nat k)).
Proof.
  intros Hlen. induction fuel as [|fuel IH]; intros k.
  - constructor.
  - destruct (Nat.lt_ge_cases k (length flat)) as [Hk | Hk].
    + rewrite chunk_loop_step by assumption. constructor; [|apply IH].
      do 2 eexists. split; [reflexivity|].
      rewrite !length_firstn, !length_skipn, Hlen. lia.
    + rewrite (chunk_loop_done sb flat flat_tgt (length flat) eq_refl)
        by lia.
      constructor.
Qed.

(** X8.  On the chunked path the yielded slices tile the batch: each is
    one run of between 1 and [softmax_batch] positions with as many
    targets, and in order they make up the flattened decoder output and
    the flattened target. *)
Theorem batch_for_softmax_tiles (first : tensor3) (tgt : ids2)
    (items : list item)
    (Hchunked : (Z.pos sb <= Z.of_nat (length first * shape_tsz first))%Z)
    (Hitems : batch_for_softmax sb first tgt = Ok items) :
  concat (map (fun it : item => concat (fst (fst it))) items) = concat first
  /\ concat (map (fun it : item => concat (snd (fst it))) items)
     = concat tgt
  /\ Forall (fun it : item =>
               exists rows ts,
                 it = ([rows], [ts], false)
                 /\ length rows = length ts
                 /\ 1 <= length rows <= Pos.to_nat sb)
            items.
Proof.
  unfold batch_for_softmax in Hitems.
  rewrite (proj2 (Z.ltb_ge _ _) Hchunked) in Hitems.
  destruct (Nat.eqb_spec (length (concat tgt)) (length (concat first)))
    as [Hlen | Hlen]; [|discriminate].
  inversion Hitems; subst items. clear Hitems.
  change 0%Z with (Z.of_nat 0).
  rewrite chunk_loop_rows, chunk_loop_tgts by (assumption || lia).
  repeat split. now apply chunk_loop_sizes.
Qed.

End TilingFacts.

Lemma batch_for_softmax_tiles_witness :
  exists items,
    batch_for_softmax 2 [[[Fin 0]; [Fin 1]; [Fin 2]]] [[4; 5; 6]%Z]
    = Ok items
    /\ concat (map (fun it : item => concat (snd (fst it))) items)
       = [4; 5; 6]%Z.
Proof.
  eexists. split; [reflexivity|].
  apply (batch_for_softmax_tiles 2 [[[Fin 0]; [Fin 1]; [Fin 2]]]
           [[4; 5; 6]%Z]); [simpl; lia | reflexivity].
Defined.

(** ** What scoring one model returns *)

Section ScoreModelFacts.

Variable sc : scorer.
Variable n : nat.
Variable m : model.
Variable tgt : ids2.

(** The chunked path in general: the target probabilities of the
    flattened positions, reshaped. *)
Lemma score_model_chunked_gen (junk : nat -> fval) :
  (Z.pos (softmax_batch sc)
   <= Z.of_nat (length (decoder_out m) * shape_tsz (decoder_out m)))%Z ->
  length (concat tgt) = length (concat (decoder_out m)) ->
  1 <= length (concat (decoder_out m)) ->
  score_model junk sc n m tgt
  = vs <- all_pos sc n m (concat (decoder_out m)) (concat tgt) ;;
    Ok (unflatten tgt vs).
Proof.
  intros Hsb Hlen HN. unfold score_model, batch_for_softmax.
  rewrite (proj2 (Z.ltb_ge _ _) Hsb), Hlen, Nat.eqb_refl. cbn [bind].
  rewrite (score_chunks_first junk sc n m tgt (softmax_batch sc)
             (concat (decoder_out m)) (concat tgt)
             (length (concat (decoder_out m))) eq_refl Hlen)
    by assumption.
  rewrite (score_chunks junk sc n m tgt (softmax_batch sc)
             (concat (decoder_out m)) (concat tgt)
             (length (concat (decoder_out m))) eq_refl Hlen
             (length (concat (decoder_out m))) 0%Z 0);
    [ | left; split; [reflexivity | lia] | lia
      | unfold new_buffer, numel; now rewrite length_map, length_seq ].
  cbn [skipn firstn app].
  now destruct (all_pos sc n m (concat (decoder_out m)) (concat tgt)).
Qed.

(** X9.  The buffer of the chunked path is allocated uninitialised, but
    none of its initial content reaches the result: scoring a model gives
    the same outcome whatever that content is. *)
Theorem score_model_ignores_junk (junk junk' : nat -> fval) :
  score_model junk sc n m tgt = score_model junk' sc n m tgt.
Proof.
  destruct (Z.ltb_spec
              (Z.of_nat (length (decoder_out m) * shape_tsz (decoder_out m)))
              (Z.pos (softmax_batch sc))) as [Hsingle | Hchunked].
  - unfold score_model, batch_for_softmax.
    rewrite (proj2 (Z.ltb_lt _ _) Hsingle). reflexivity.
  - destruct (Nat.eq_dec (length (concat tgt))
                (length (concat (decoder_out m)))) as [Hlen | Hlen].
    + destruct (Nat.eq_dec (length (concat (decoder_out m))) 0) as [H0 | H0].
      * unfold score_model, batch_for_softmax.
        rewrite (proj2 (Z.ltb_ge _ _) Hchunked), Hlen, Nat.eqb_refl, H0.
        reflexivity.
      * rewrite !score_model_chunked_gen by (assumption || lia).
        reflexivity.
    + unfold score_model, batch_for_softmax.
      rewrite (proj2 (Z.ltb_ge _ _) Hchunked).
      now rewrite (proj2 (Nat.eqb_neq _ _) Hlen).
Qed.

Lemma mapM_Forall2 {A B : Type} (f : A -> result B) (l : list A)
    (v : list B) :
  mapM f l = Ok v -> Forall2 (fun x y => f x = Ok y) l v.
Proof.
  revert v. induction l as [|x l IH]; intros v Hv; simpl in Hv.
  - inversion Hv. constructor.
  - destruct (f x) as [y|e] eqn:E; [|discriminate]. simpl in Hv.
    destruct (mapM f l) as [ys|e]; [|discriminate]. simpl in Hv.
    inversion Hv. constructor; auto.
Qed.

Lemma gather_seq_length (p : list row) (t : list Z) (g : list fval) :
  gather_seq p t = Ok g -> length g = length t.
Proof.
  unfold gather_seq.
  destruct (Nat.leb_spec (length t) (length p)) as [Hle|]; [|discriminate].
  intros Hg. apply mapM_length in Hg. rewrite Hg, length_combine. lia.
Qed.

Lemma gather_shape (probs : tensor3) (t : ids2) (g : tensor2) :
  gather_target_probs probs t = Ok g ->
  map (@length fval) g = map (@length Z) t.
Proof.
  unfold gather_target_probs.
  destruct (Nat.leb_spec (length t) (length probs)) as [Hle|];
    [|discriminate].
  intros Hg. apply mapM_Forall2 in Hg. revert probs Hle g Hg.
  induction t as [|r t IH]; intros probs Hle g Hg.
  - rewrite combine_nil in Hg. inversion Hg. reflexivity.
  - destruct probs as [|p probs]; [simpl in Hle; lia|].
    cbn [combine] in Hg. inversion Hg as [|? y ? ys Hy Hys]; subst.
    cbn [map fst snd] in *. f_equal.
    + now apply gather_seq_length in Hy.
    + apply (IH probs); [simpl in Hle; lia | assumption].
Qed.

Lemma unflatten_shape {A B : Type} (shape : list (list B)) (buf : list A) :
  length buf = length (concat shape) ->
  map (@length A) (unflatten shape buf) = map (@length B) shape.
Proof.
  revert buf. induction shape as [|r shape IH]; intros buf H;
    [reflexivity|].
  cbn [unflatten map concat] in *. rewrite length_app in H. f_equal.
  - rewrite length_firstn. lia.
  - apply IH. rewrite length_skipn. lia.
Qed.

Lemma score_model_rows (junk : nat -> fval) (probs : tensor2) :
  score_model junk sc n m tgt = Ok probs ->
  map (@length fval) probs = map (@length Z) tgt.
Proof.
  intros Hok.
  destruct (Z.ltb_spec
              (Z.of_nat (length (decoder_out m) * shape_tsz (decoder_out m)))
              (Z.pos (softmax_batch sc))) as [Hsingle | Hchunked].
  - unfold score_model, batch_for_softmax in Hok.
    rewrite (proj2 (Z.ltb_lt _ _) Hsingle) in Hok.
    cbn [bind score_items score_item] in Hok.
    destruct (curr_prob sc n m (decoder_out m)) as [cp|e]; [|discriminate].
    cbn [bind] in Hok.
    destruct (gather_target_probs cp tgt) as [g|e] eqn:E; [|discriminate].
    cbn [bind fst view_as_target] in Hok. inversion Hok; subst.
    now apply gather_shape in E.
  - destruct (Nat.eq_dec (length (concat tgt))
                (length (concat (decoder_out m)))) as [Hlen | Hlen].
    + destruct (Nat.eq_dec (length (concat (decoder_out m))) 0) as [H0 | H0].
      * unfold score_model, batch_for_softmax in Hok.
        rewrite (proj2 (Z.ltb_ge _ _) Hchunked), Hlen, Nat.eqb_refl, H0
          in Hok.
        discriminate.
      * rewrite score_model_chunked_gen in Hok by (assumption || lia).
        destruct (all_pos sc n m (concat (decoder_out m)) (concat tgt))
          as [vs|e] eqn:E; [|discriminate].
        cbn [bind] in Hok. inversion Hok; subst.
        apply unflatten_shape. apply mapM_length in E.
        rewrite E, length_combine. lia.
    + unfold score_model, batch_for_softmax in Hok.
      rewrite (proj2 (Z.ltb_ge _ _) Hchunked) in Hok.
      rewrite (proj2 (Nat.eqb_neq _ _) Hlen) in Hok. discriminate.
Qed.

(** X10.  Whenever scoring a model succeeds, on either path, the result
    has the shape of the target: one row per sequence and one entry per
    target token. *)
Theorem score_model_shape (junk : nat -> fval) (probs : tensor2)
    (Hok : score_model junk sc n m tgt = Ok probs) :
  map (@length fval) probs = map (@length Z) tgt.
Proof. now apply (score_model_rows junk). Qed.

(** X11.  With a projection matrix, a batch that takes the single-shot
    path and does not hold exactly one sequence stops at the assertion of
    line 113. *)
Theorem single_shot_with_coef_asserts (junk : nat -> fval) (c : list row)
    (Hcoef : coef sc = Some c)
    (Hbsz : length (decoder_out m) <> 1)
    (Hsingle : (Z.of_nat (length (decoder_out m)
                          * shape_tsz (decoder_out m))
                < Z.pos (softmax_batch sc))%Z) :
  score_model junk sc n m tgt = Raise AssertionError.
Proof.
  unfold score_model, batch_for_softmax.
  rewrite (proj2 (Z.ltb_lt _ _) Hsingle).
  cbn [bind score_items score_item]. unfold curr_prob. rewrite Hcoef.
  revert Hbsz.
  destruct (decoder_out m) as [|r0 [|r1 rest]]; try reflexivity.
  intros Hbsz. now contradiction Hbsz.
Qed.

End ScoreModelFacts.

Lemma score_model_shape_witness :
  map (@length fval) [[Fin (1 / 4)%R]; [Fin (1 / 4)%R]]
  = map (@length Z) [[0%Z]; [1%Z]].
Proof.
  apply (score_model_shape plain_scorer 2 uniform4_pair [[0%Z]; [1%Z]]
           no_junk).
  reflexivity.
Defined.

Lemma single_shot_with_coef_asserts_witness :
  score_model no_junk clustered_scorer 1 uniform4_pair [[0%Z]; [0%Z]]
  = Raise AssertionError.
Proof.
  apply (single_shot_with_coef_asserts clustered_scorer 1 uniform4_pair
           [[0%Z]; [0%Z]] no_junk pair_coef).
  - reflexivity.
  - discriminate.
  - reflexivity.
Defined.

Section VocabularyFacts.

Variable junk : nat -> fval.
Variable sc : scorer.
Variable n : nat.
Variable m : model.
Variable tgt : ids2.
Variable V : nat.

Hypothesis Hcoef : coef sc = None.
Hypothesis Hshape :
  Forall2 (fun r t => length r = length t) (decoder_out m) tgt.
Hypothesis Hrect : rectangular (shape_tsz (decoder_out m)) (decoder_out m).
Hypothesis Hvocab : forall b r, length (get_normalized_probs m b r) = V.

Lemma with_softmax_batch_id (s : scorer) :
  with_softmax_batch s (softmax_batch s) = s.
Proof. now destruct s. Qed.

(** Without a projection matrix both paths compute the reference. *)
Lemma score_model_reference :
  score_model junk sc n m tgt
  = vs <- all_pos sc n m (concat (decoder_out m)) (concat tgt) ;;
    Ok (unflatten tgt vs).
Proof.
  rewrite <- (with_softmax_batch_id sc) at 1.
  destruct (Z.ltb_spec
              (Z.of_nat (length (decoder_out m) * shape_tsz (decoder_out m)))
              (Z.pos (softmax_batch sc))) as [Hsingle | Hchunked].
  - apply score_model_single; auto.
  - apply score_model_chunked; auto. now apply concat_length_rect.
Qed.

Lemma pos_prob_plain (r : row) (t : Z) :
  pos_prob sc n m (r, t)
  = gather1 (get_normalized_probs m (n =? 1) r) t.
Proof. unfold pos_prob, row_prob. now rewrite Hcoef. Qed.

Lemma gather1_in_range (p : row) (t : Z) :
  (0 <= t < Z.of_nat (length p))%Z ->
  gather1 p t = Ok (nth (Z.to_nat t) p (Fin 0)).
Proof.
  intros Ht. unfold gather1.
  replace ((0 <=? t)%Z && (t <? Z.of_nat (length p))%Z) with true
    by (symmetry; apply andb_true_iff; split;
        [apply Z.leb_le | apply Z.ltb_lt]; lia).
  destruct (nth_error p (Z.to_nat t)) as [x|] eqn:E.
  - f_equal. symmetry. now apply nth_error_nth.
  - apply nth_error_None in E. lia.
Qed.

Lemma gather1_out_of_range (p : row) (t : Z) :
  ~ (0 <= t < Z.of_nat (length p))%Z -> gather1 p t = Raise RuntimeError.
Proof.
  intros Ht. unfold gather1.
  replace ((0 <=? t)%Z && (t <? Z.of_nat (length p))%Z) with false;
    [reflexivity|].
  symmetry. apply andb_false_iff.
  destruct (Z.leb_spec 0 t); [right; apply Z.ltb_ge; lia | now left].
Qed.

Lemma in_combine_of_r {A B : Type} (xs : list A) (ys : list B) (y : B) :
  length xs = length ys -> In y ys -> exists x, In (x, y) (combine xs ys).
Proof.
  revert ys. induction xs as [|x xs IH]; intros [|y0 ys] Hlen Hin;
    simpl in *; try discriminate; try contradiction.
  destruct Hin as [-> | Hin].
  - exists x. now left.
  - destruct (IH ys ltac:(congruence) Hin) as [x' Hx']. exists x'. now right.
Qed.

Lemma Forall2_pick {A B : Type} (R : A -> B -> Prop) (l : list A)
    (v : list B) (x : A) :
  Forall2 R l v -> In x l -> exists y, R x y.
Proof.
  induction 1 as [|x0 y0 l v Hxy _ IH]; intros Hin; [contradiction|].
  destruct Hin as [-> | Hin]; [now exists y0 | now apply IH].
Qed.

(** X12.  Without a projection matrix, for a model that normalises over
    V entries and a target of the shape of its output: scoring succeeds
    when every target id lies in [0, V), and raises RuntimeError as soon
    as one does not. *)
Theorem score_model_succeeds_iff_in_vocabulary :
  (Forall (fun t => (0 <= t < Z.of_nat V)%Z) (concat tgt) ->
   exists probs, score_model junk sc n m tgt = Ok probs)
  /\ (~ Forall (fun t => (0 <= t < Z.of_nat V)%Z) (concat tgt) ->
      score_model junk sc n m tgt = Raise RuntimeError).
Proof.
  rewrite score_model_reference. unfold all_pos. split.
  - intros Hall.
    rewrite (mapM_ok (pos_prob sc n m)
               (fun rt => nth (Z.to_nat (snd rt))
                              (get_normalized_probs m (n =? 1) (fst rt))
                              (Fin 0))).
    + eexists. reflexivity.
    + apply Forall_forall. intros [r t] Hin.
      rewrite pos_prob_plain. apply gather1_in_range. rewrite Hvocab.
      apply in_combine_r in Hin.
      now apply (proj1 (Forall_forall _ _) Hall).
  - intros Hnot.
    destruct (mapM (pos_prob sc n m)
                (combine (concat (decoder_out m)) (concat tgt)))
      as [vs|e] eqn:E.
    + exfalso. apply Hnot. apply Forall_forall. intros t Hin.
      destruct (in_combine_of_r (concat (decoder_out m)) (concat tgt) t
                  (concat_length_same _ _ Hshape) Hin) as [r Hr].
      apply mapM_Forall2 in E.
      destruct (Forall2_pick _ _ _ _ E Hr) as [v Hv].
      rewrite pos_prob_plain in Hv.
      destruct (Z_le_dec 0 t) as [H0|H0];
        [destruct (Z_lt_dec t (Z.of_nat V)) as [H1|H1]; [lia|] |];
        rewrite gather1_out_of_range in Hv
          by (rewrite Hvocab; lia);
        discriminate.
    + apply (mapM_only_runtime (pos_prob sc n m) _) in E;
        [subst e; reflexivity|].
      intros [r t]. rewrite pos_prob_plain.
      apply (gather1_only_runtime (_, t)).
Qed.

End VocabularyFacts.

Lemma score_model_succeeds_iff_in_vocabulary_witness :
  exists probs,
    score_model no_junk plain_scorer 2 uniform4_pair [[0%Z]; [3%Z]]
    = Ok probs.
Proof.
  apply (score_model_succeeds_iff_in_vocabulary no_junk plain_scorer 2
           uniform4_pair [[0%Z]; [3%Z]] 4).
  - reflexivity.
  - repeat constructor.
  - repeat constructor.
  - intros [|] r; reflexivity.
  - repeat constructor; lia.
Defined.

(** ** The interpolation at and around the ends of the interval *)

Section MixtureFacts.

Open Scope R_scope.

Lemma same_shape_fin (V K : list (list R)) :
  Forall2 (fun a b => length a = length b) V K ->
  same_shape (map (map Fin) V) (map (map Fin) K) = true.
Proof.
  intros H. unfold same_shape. apply andb_true_iff. split.
  - rewrite !length_map. apply Nat.eqb_eq. now apply Forall2_length in H.
  - induction H as [|a b V K Hab _ IH]; [reflexivity|].
    cbn [map combine forallb fst snd]. rewrite !length_map, Hab, Nat.eqb_refl.
    exact IH.
Qed.

(** The interpolation of finite tensors, entry by entry. *)
Lemma combine_fin (f : R -> R -> fval) (V K : list (list R)) (coeff : R) :
  Forall2 (fun a b => length a = length b) V K ->
  (forall v k,
     logsumexp [fadd (Fin v) (flog (Fin (1 - coeff)));
                fadd (Fin k) (flog (Fin coeff))] = f v k) ->
  combine_knn_and_vocab_probs (map (map Fin) K) (map (map Fin) V) coeff
  = Ok (zip_with (zip_with f) V K).
Proof.
  intros Hshape Hf. rewrite combine_spec by now apply same_shape_fin.
  f_equal. rewrite zip_with2_map.
  clear Hshape. revert K. induction V as [|a V IH]; intros [|b K];
    cbn [zip_with]; try reflexivity.
  rewrite IH. f_equal. revert b.
  induction a as [|v a IHa]; intros [|k b]; cbn [zip_with]; try reflexivity.
  now rewrite IHa, Hf.
Qed.

Lemma zip_with_fst {A B : Type} (xs : list (list A)) (ys : list (list B)) :
  Forall2 (fun a b => length a = length b) xs ys ->
  zip_with (zip_with (fun x _ => x)) xs ys = xs.
Proof.
  induction 1 as [|a b xs ys Hab _ IH]; [reflexivity|].
  cbn [zip_with]. rewrite IH. f_equal. revert b Hab.
  induction a as [|x a IHa]; intros [|y b] Hab; simpl in *;
    try discriminate; [reflexivity|].
  f_equal. apply IHa. congruence.
Qed.

Lemma zip_with_snd {A B : Type} (xs : list (list A)) (ys : list (list B)) :
  Forall2 (fun a b => length a = length b) xs ys ->
  zip_with (zip_with (fun _ y => y)) xs ys = ys.
Proof.
  induction 1 as [|a b xs ys Hab _ IH]; [reflexivity|].
  cbn [zip_with]. rewrite IH. f_equal. revert b Hab.
  induction a as [|x a IHa]; intros [|y b] Hab; simpl in *;
    try discriminate; [reflexivity|].
  f_equal. apply IHa. congruence.
Qed.

Lemma zip_with2_map_out {A B C D : Type} (g : C -> D) (f : A -> B -> C)
    (xs : list (list A)) (ys : list (list B)) :
  zip_with (zip_with (fun x y => g (f x y))) xs ys
  = map (map g) (zip_with (zip_with f) xs ys).
Proof.
  revert ys. induction xs as [|a xs IH]; intros [|b ys]; cbn [zip_with map];
    try reflexivity.
  rewrite IH. f_equal. revert b.
  induction a as [|x a IHa]; intros [|y b]; cbn [zip_with map];
    try reflexivity.
  now rewrite IHa.
Qed.

Lemma entry_weight_zero (v k : R) :
  logsumexp [fadd (Fin v) (flog (Fin (1 - 0)));
             fadd (Fin k) (flog (Fin 0))] = Fin v.
Proof.
  rewrite flog_zero, flog_pos by lra. cbn [fadd].
  unfold logsumexp. cbn [map fexp]. unfold fsum. cbn [fold_left fadd].
  rewrite flog_pos by (pose proof (exp_pos (v + ln (1 - 0))); lra).
  replace (1 - 0) with 1 by lra. rewrite ln_1.
  rewrite (Rplus_0_r v), Rplus_0_r, Rplus_0_l. now rewrite ln_exp.
Qed.

Lemma entry_weight_one (v k : R) :
  logsumexp [fadd (Fin v) (flog (Fin (1 - 1)));
             fadd (Fin k) (flog (Fin 1))] = Fin k.
Proof.
  replace (1 - 1) with 0 by lra.
  rewrite flog_zero, flog_pos by lra. cbn [fadd].
  unfold logsumexp. cbn [map fexp]. unfold fsum. cbn [fold_left fadd].
  rewrite flog_pos by (pose proof (exp_pos (k + ln 1)); lra).
  rewrite ln_1, (Rplus_0_r k), Rplus_0_l, Rplus_0_l. now rewrite ln_exp.
Qed.

(** X13.  On finite log-probabilities of one shape the weight 0 returns
    the model's tensor and the weight 1 the retrieval tensor: the ends of
    the interval are accepted and give the pure distributions. *)
Theorem combine_at_ends (V K : list (list R))
    (Hshape : Forall2 (fun a b => length a = length b) V K) :
  combine_knn_and_vocab_probs (map (map Fin) K) (map (map Fin) V) 0
  = Ok (map (map Fin) V)
  /\ combine_knn_and_vocab_probs (map (map Fin) K) (map (map Fin) V) 1
     = Ok (map (map Fin) K).
Proof.
  split.
  - rewrite (combine_fin (fun v _ => Fin v)) by (auto using entry_weight_zero).
    f_equal. rewrite (zip_with2_map_out Fin (fun v _ => v)).
    now rewrite zip_with_fst.
  - rewrite (combine_fin (fun _ k => Fin k)) by (auto using entry_weight_one).
    f_equal. rewrite (zip_with2_map_out Fin (fun _ k => k)).
    now rewrite zip_with_snd.
Qed.

Lemma combine_at_ends_witness :
  combine_knn_and_vocab_probs [[Fin (-1)]] [[Fin (-2)]] 1 = Ok [[Fin (-1)]].
Proof.
  apply (proj2 (combine_at_ends [[-2]] [[-1]] ltac:(repeat constructor))).
Defined.

(** X14.  For a weight inside (0,1), interpolating a finite tensor with
    itself returns it unchanged. *)
Theorem combine_idempotent (P : list (list R)) (coeff : R)
    (Hin : 0 < coeff < 1) :
  combine_knn_and_vocab_probs (map (map Fin) P) (map (map Fin) P) coeff
  = Ok (map (map Fin) P).
Proof.
  assert (Hshape : Forall2 (fun a b : list R => length a = length b) P P)
    by (induction P; constructor; auto).
  rewrite (combine_fin
             (fun v k => Fin (ln ((1 - coeff) * exp v + coeff * exp k))))
    by (auto using log_mixture_interior).
  f_equal.
  rewrite (zip_with2_map_out Fin
             (fun v k => ln ((1 - coeff) * exp v + coeff * exp k))).
  f_equal. clear Hshape.
  induction P as [|a P IH]; [reflexivity|].
  cbn [zip_with]. rewrite IH. f_equal.
  induction a as [|v a IHa]; [reflexivity|].
  cbn [zip_with]. rewrite IHa. f_equal.
  replace ((1 - coeff) * exp v + coeff * exp v) with (exp v) by lra.
  apply ln_exp.
Qed.

Lemma combine_idempotent_witness :
  combine_knn_and_vocab_probs [[Fin (-1)]] [[Fin (-1)]] (1 / 4)
  = Ok [[Fin (-1)]].
Proof. apply (combine_idempotent [[-1]] (1 / 4)). lra. Defined.

Lemma entry_weight_outside (v k coeff : R) :
  coeff < 0 \/ 1 < coeff ->
  logsumexp [fadd (Fin v) (flog (Fin (1 - coeff)));
             fadd (Fin k) (flog (Fin coeff))] = NaN.
Proof.
  intros [H | H].
  - rewrite (flog_neg coeff) by lra. rewrite flog_pos by lra. reflexivity.
  - rewrite (flog_neg (1 - coeff)) by lra. rewrite flog_pos by lra.
    reflexivity.
Qed.

(** X15.  A weight below 0 or above 1 raises nothing: on finite tensors
    of one shape every entry of the result is NaN. *)
Theorem combine_outside_is_nan (V K : list (list R)) (coeff : R)
    (Hshape : Forall2 (fun a b => length a = length b) V K)
    (Hout : coeff < 0 \/ 1 < coeff) :
  combine_knn_and_vocab_probs (map (map Fin) K) (map (map Fin) V) coeff
  = Ok (map (map (fun _ => NaN)) V).
Proof.
  rewrite (combine_fin (fun _ _ => NaN))
    by (auto using entry_weight_outside).
  f_equal.
  rewrite (zip_with2_map_out (fun _ : R => NaN) (fun v _ => v)).
  now rewrite zip_with_fst.
Qed.

Lemma combine_outside_is_nan_witness :
  combine_knn_and_vocab_probs [[Fin (-1)]] [[Fin (-2)]] 2 = Ok [[NaN]].
Proof.
  apply (combine_outside_is_nan [[-2]] [[-1]] 2);
    [repeat constructor | lra].
Defined.

End MixtureFacts.

(** ** The ensemble and the hypotheses *)

Section EnsembleMoreFacts.

Open Scope R_scope.

Variable junk : nat -> fval.
Variable sc : scorer.
Variable n : nat.
Variable m : model.
Variable tgt : ids2.
Variable Pr : list (list R).

Hypothesis Hscore : score_model junk sc n m tgt = Ok (map (map Fin) Pr).

Lemma same_shape_maps {A : Type} (f g : A -> fval) (P : list (list A)) :
  same_shape (map (map f) P) (map (map g) P) = true.
Proof.
  unfold same_shape. rewrite !length_map, Nat.eqb_refl. cbn [andb].
  induction P as [|a P IH]; [reflexivity|].
  cbn [map combine forallb fst snd]. now rewrite !length_map, Nat.eqb_refl.
Qed.

Lemma add2_maps (f g : R -> R) (P : list (list R)) :
  add2 (map (map (fun p => Fin (f p))) P) (map (map (fun p => Fin (g p))) P)
  = map (map (fun p => Fin (f p + g p))) P.
Proof.
  unfold add2. induction P as [|a P IH]; [reflexivity|].
  cbn [map zip_with]. rewrite IH. f_equal.
  induction a as [|p a IHa]; [reflexivity|].
  cbn [map zip_with fadd]. now rewrite IHa.
Qed.

(** After [j] copies the accumulator holds [j] times the probabilities. *)
Lemma models_loop_copies (k j : nat) :
  models_loop junk sc n None tgt
    (Some (map (map (fun p => Fin (INR j * p))) Pr)) None (repeat m k)
  = Ok (Some (map (map (fun p => Fin (INR (j + k) * p))) Pr), None).
Proof.
  revert j. induction k as [|k IH]; intros j.
  - cbn [repeat models_loop]. now rewrite Nat.add_0_r.
  - cbn [repeat models_loop]. rewrite Hscore. cbn [bind fuse_knn fst snd].
    unfold add_.
    rewrite (same_shape_maps (fun p => Fin (INR j * p)) Fin Pr).
    change (map (map Fin) Pr) with (map (map (fun p => Fin ((fun q => q) p))) Pr).
    rewrite (add2_maps (fun p => INR j * p) (fun q => q)). cbn [bind].
    replace (map (map (fun p => Fin (INR j * p + p))) Pr)
      with (map (map (fun p => Fin (INR (S j) * p))) Pr).
    + rewrite IH. now replace (S j + k)%nat with (j + S k)%nat by lia.
    + apply map_ext. intros a. apply map_ext. intros p. f_equal.
      rewrite S_INR. lra.
Qed.

(** X16.  When each of [n >= 2] copies of a model yields the same finite
    positive probabilities, the ensemble sums them, divides by [n] and
    takes the log once: the result is the log of those probabilities. *)
Theorem ensemble_of_copies (Hn : (2 <= n)%nat)
    (Hpos : Forall (Forall (fun p => 0 < p)) Pr) :
  exists avg,
    models_loop junk sc n None tgt None None (repeat m n)
    = Ok (Some avg, None)
    /\ average n avg = map (map (fun p => Fin (ln p))) Pr.
Proof.
  assert (E : repeat m n = m :: repeat m (n - 1)).
  { clear Hscore. destruct n as [|n']; [lia|].
    cbn [repeat]. now rewrite Nat.sub_succ, Nat.sub_0_r. }
  exists (map (map (fun p => Fin (INR n * p))) Pr). split.
  - rewrite E. cbn [models_loop]. rewrite Hscore.
    cbn [bind fuse_knn fst snd].
    replace (map (map Fin) Pr)
      with (map (map (fun p => Fin (INR 1 * p))) Pr).
    + rewrite models_loop_copies.
      now replace (1 + (n - 1))%nat with n by lia.
    + apply map_ext. intros a. apply map_ext. intros p. f_equal.
      simpl. lra.
  - unfold average.
    replace (1 <? n)%nat with true by (symmetry; apply Nat.ltb_lt; lia).
    assert (HS : 0 < INR n) by (apply lt_0_INR; lia).
    rewrite map_map. apply map_ext_in. intros a Ha.
    rewrite map_map. apply map_ext_in. intros p Hp.
    assert (0 < p).
    { apply (proj1 (Forall_forall _ _) Hpos) in Ha.
      now apply (proj1 (Forall_forall _ _) Ha). }
    rewrite fdiv_fin by lra.
    replace (INR n * p / INR n) with p by (field; lra).
    now apply flog_pos.
Qed.

End EnsembleMoreFacts.

Lemma ensemble_of_copies_witness :
  exists avg,
    models_loop no_junk plain_scorer 2 None [[0%Z]] None None
      (repeat uniform4 2)
    = Ok (Some avg, None)
    /\ average 2 avg = [[Fin (ln (1 / 4))]].
Proof.
  apply (ensemble_of_copies no_junk plain_scorer 2 uniform4 [[0%Z]]
           [[(1 / 4)%R]]).
  - reflexivity.
  - lia.
  - repeat constructor. lra.
Defined.

Section HypoFacts.

Open Scope R_scope.

Variable sc : scorer.
Variable smp : sample.
Variable avg_probs : tensor2.
Variable start_idxs : list Z.
Variable i : nat.
Variable s : Z.
Variable tgt_i : list Z.
Variable row_i : list fval.

Hypothesis Hs : nth_error start_idxs i = Some s.
Hypothesis Ht : nth_error (target smp) i = Some tgt_i.
Hypothesis Hr : nth_error avg_probs i = Some row_i.
Hypothesis Hpos : (0 <= s)%Z.

(** The hypothesis of a sequence when no datastore is in use. *)
Lemma hypo_i_eval :
  hypo_i sc smp avg_probs None start_idxs i
  = let ref := strip_pad (skipn (Z.to_nat s) tgt_i) (pad sc) in
    let sl := firstn (length ref) (skipn (Z.to_nat s) row_i) in
    Ok {| tokens := ref;
          score := fdiv (fsum sl) (Fin (IZR (Z.of_nat (length ref))));
          positional_scores := sl;
          knn_probs := None |}.
Proof.
  unfold hypo_i, index_or_raise. rewrite Hs, Ht, Hr. cbn [bind].
  rewrite py_slice_from_skipn, py_slice_firstn_skipn by lia.
  now rewrite Nat2Z.id.
Qed.

(** X17.  A sequence whose target holds only padding from its start
    offset on gets an empty hypothesis, and its score, 0 divided by 0, is
    NaN. *)
Theorem all_pad_scores_nan
    (Hpad : Forall (fun x => x = pad sc) (skipn (Z.to_nat s) tgt_i)) :
  exists h,
    hypo_i sc smp avg_probs None start_idxs i = Ok h
    /\ tokens h = []
    /\ positional_scores h = []
    /\ score h = NaN.
Proof.
  rewrite hypo_i_eval. eexists. split; [reflexivity|].
  assert (E : strip_pad (skipn (Z.to_nat s) tgt_i) (pad sc) = []).
  { unfold strip_pad. induction Hpad as [|x l Hx _ IH]; [reflexivity|].
    cbn [filter]. now rewrite (proj2 (Z.eqb_eq _ _) Hx). }
  cbv zeta. cbn [tokens positional_scores score]. rewrite E.
  cbn [length firstn Z.of_nat]. repeat split.
  unfold fsum. cbn [fold_left fdiv].
  rewrite Reqb_true by reflexivity. unfold Rsign.
  now rewrite !Rltb_false by lra.
Qed.

(** X18.  When the row of probabilities is as long as the target row,
    the hypothesis has one positional score per token it keeps. *)
Theorem positional_scores_per_token
    (Hshape : length row_i = length tgt_i) :
  exists h,
    hypo_i sc smp avg_probs None start_idxs i = Ok h
    /\ length (positional_scores h) = length (tokens h).
Proof.
  rewrite hypo_i_eval. eexists. split; [reflexivity|].
  cbv zeta. cbn [tokens positional_scores].
  rewrite length_firstn, length_skipn, Hshape.
  pose proof (filter_length_le (fun x => negb (x =? pad sc)%Z)
                (skipn (Z.to_nat s) tgt_i)) as Hle.
  rewrite length_skipn in Hle. unfold strip_pad. lia.
Qed.

End HypoFacts.

Lemma all_pad_scores_nan_witness :
  exists h,
    hypo_i plain_scorer {| target := [[4; 1; 1]%Z]; start_indices := None |}
      [[Fin (-1); Fin (-2); Fin (-3)]] None [1%Z] 0
    = Ok h
    /\ tokens h = [] /\ positional_scores h = [] /\ score h = NaN.
Proof.
  apply (all_pad_scores_nan plain_scorer
           {| target := [[4; 1; 1]%Z]; start_indices := None |}
           [[Fin (-1); Fin (-2); Fin (-3)]] [1%Z] 0 1%Z [4; 1; 1]%Z
           [Fin (-1); Fin (-2); Fin (-3)]);
    try reflexivity; try lia; repeat constructor.
Defined.

Lemma positional_scores_per_token_witness :
  exists h,
    hypo_i plain_scorer {| target := [[4; 5; 1]%Z]; start_indices := None |}
      [[Fin (-1); Fin (-2); Fin (-3)]] None [0%Z] 0
    = Ok h
    /\ length (positional_scores h) = length (tokens h).
Proof.
  apply (positional_scores_per_token plain_scorer
           {| target := [[4; 5; 1]%Z]; start_indices := None |}
           [[Fin (-1); Fin (-2); Fin (-3)]] [0%Z] 0 0%Z [4; 5; 1]%Z
           [Fin (-1); Fin (-2); Fin (-3)]);
    try reflexivity; lia.
Defined.

Section GenerateFacts.

Variable junk : nat -> fval.
Variable sc : scorer.
Variable n : nat.
Variable kwargs : option knn_dstore.
Variable tgt : ids2.

Lemma map_length_eq {A B : Type} (xs : list (list A)) (ys : list (list B)) :
  map (@length A) xs = map (@length B) ys -> length xs = length ys.
Proof.
  intros H. apply (f_equal (@length nat)) in H. now rewrite !length_map in H.
Qed.

Lemma same_shape_length (a b : tensor2) :
  same_shape a b = true -> length a = length b.
Proof.
  unfold same_shape. intros H. apply andb_true_iff in H.
  now apply Nat.eqb_eq.
Qed.

Lemma zip_with_length_eq {A B C : Type} (f : A -> B -> C) (xs : list A)
    (ys : list B) :
  length xs = length ys -> length (zip_with f xs ys) = length xs.
Proof.
  revert ys. induction xs as [|x xs IH]; intros [|y ys] H; simpl in *;
    try congruence. f_equal. apply IH. congruence.
Qed.

Lemma fuse_knn_length (m : model) (probs p : tensor2) (y : option tensor2) :
  fuse_knn sc n kwargs m tgt probs = Ok (p, y) -> length p = length probs.
Proof.
  unfold fuse_knn. destruct kwargs as [d|]; [|intros H; now inversion H].
  destruct (lookup_queries m) as [queries|e]; [|discriminate]. cbn [bind].
  destruct (negb (n =? 1)); [discriminate|].
  destruct (same_shape probs (d queries tgt)) eqn:Hs.
  - rewrite combine_spec by assumption. cbn [bind]. intros H.
    inversion H; subst. apply zip_with_length_eq.
    now apply same_shape_length.
  - unfold combine_knn_and_vocab_probs. rewrite Hs. discriminate.
Qed.

(** The accumulator keeps one row per sequence of the target. *)
Lemma models_loop_rows (ms : list model) :
  forall avg yhat a y,
    (forall a0, avg = Some a0 -> length a0 = length tgt) ->
    models_loop junk sc n kwargs tgt avg yhat ms = Ok (Some a, y) ->
    length a = length tgt.
Proof.
  induction ms as [|m ms IH]; intros avg yhat a y Havg H.
  - cbn [models_loop] in H. inversion H; subst. now apply Havg.
  - cbn [models_loop] in H.
    destruct (score_model junk sc n m tgt) as [probs|e] eqn:Es;
      [|discriminate].
    cbn [bind] in H.
    destruct (fuse_knn sc n kwargs m tgt probs) as [[p y0]|e] eqn:Ef;
      [|discriminate].
    cbn [bind fst snd] in H.
    assert (Hp : length p = length tgt).
    { rewrite (fuse_knn_length _ _ _ _ Ef).
      apply map_length_eq. now apply (score_model_rows sc n m tgt junk). }
    destruct avg as [a0|].
    + unfold add_ in H. destruct (same_shape a0 p) eqn:Hs; [|discriminate].
      cbn [bind] in H. refine (IH _ _ _ _ _ H).
      intros a1 E. inversion E; subst. unfold add2.
      rewrite zip_with_length_eq by now apply same_shape_length.
      now apply Havg.
    + cbn [bind] in H. refine (IH _ _ _ _ _ H).
      intros a1 E. now inversion E; subst.
Qed.

End GenerateFacts.

(** X19.  Whenever [generate] returns, it returns exactly one hypothesis
    per sequence of the target batch. *)
Theorem generate_one_hypothesis_per_sequence (junk : nat -> fval)
    (sc : scorer) (models : list model) (smp : sample)
    (kwargs : option knn_dstore) (hypos : list hypo)
    (Hok : generate junk sc models smp kwargs = Ok hypos) :
  length hypos = length (target smp).
Proof.
  unfold generate in Hok.
  destruct (models_loop junk sc (length models) kwargs (target smp) None
              None models) as [[[a|] y]|e] eqn:E; try discriminate.
  cbn [bind fst snd] in Hok. apply mapM_length in Hok.
  rewrite Hok, length_seq.
  assert (Ha : length a = length (target smp)).
  { apply (models_loop_rows junk sc (length models) kwargs (target smp)
             models None None a y); [discriminate | exact E]. }
  unfold average. destruct (1 <? length models); [|exact Ha].
  now rewrite length_map.
Qed.

(** ** The constructor *)

Section InitFacts2.

Variable one_hot : Z -> result (list row).
Variable load_npz : String.string -> result (list row).
Variable extra_embed : Z -> String.string -> result (list row).

(** X20.  The constructor leaves the projection matrix unset exactly
    when the pseudo-vocabulary ratio is at most 1 and neither a centroid
    distribution nor a file of extra embeddings is named. *)
Theorem init_coef_none_iff (a : args) :
  init_coef one_hot load_npz extra_embed a = Ok None
  <-> ((pseudo_vocab_ratio a <= 1)%Z
       /\ truthy (load_centroid_distribution a) = None
       /\ truthy (num_extra_embed_file a) = None).
Proof.
  unfold init_coef.
  destruct (Z.ltb_spec 1 (pseudo_vocab_ratio a)) as [Hr | Hr];
    destruct (truthy (load_centroid_distribution a)) as [f|];
    destruct (truthy (num_extra_embed_file a)) as [g|];
    try destruct (one_hot (pseudo_vocab_ratio a));
    try destruct (load_npz f);
    try destruct (extra_embed (pseudo_vocab_ratio a) g);
    cbn [bind]; split; try discriminate;
    try (intros [? [? ?]]; (discriminate || lia)); auto.
Qed.

(** X21.  The file of extra embeddings has the last word: when it is
    named and the earlier builders did not fail, the projection matrix
    is the one built from it, whatever the other options are. *)
Theorem init_coef_extra_embed_wins (a : args) (f : String.string)
    (c : list row) (c0 : option (list row))
    (Hfile : truthy (num_extra_embed_file a) = Some f)
    (Hbuilt : extra_embed (pseudo_vocab_ratio a) f = Ok c)
    (Hok : init_coef one_hot load_npz extra_embed a = Ok c0) :
  c0 = Some c.
Proof.
  unfold init_coef in Hok. rewrite Hfile, Hbuilt in Hok.
  destruct (1 <? pseudo_vocab_ratio a)%Z;
    [destruct (one_hot (pseudo_vocab_ratio a)); [|discriminate]|];
    cbn [bind] in Hok;
    (destruct (truthy (load_centroid_distribution a)) as [g|];
     [destruct (load_npz g); [|discriminate]|]);
    cbn [bind] in Hok; now inversion Hok.
Qed.

(** X22.  With the default [args=None] the constructor never returns a
    scorer: it stops at the assertion for a negative [softmax_batch] and
    at the first read of [args] otherwise. *)
Theorem init_without_args_fails (tgt_pad : Z) (softmax_batch : option Z) :
  init one_hot load_npz extra_embed tgt_pad softmax_batch None
  = match softmax_batch with
    | Some v => if (v <? 0)%Z then Raise AssertionError
                else Raise AttributeError
    | None => Raise AttributeError
    end.
Proof.
  unfold init, init_softmax_batch, softmax_batch_or_maxsize.
  destruct softmax_batch as [v|]; [|reflexivity].
  destruct (Z.eqb_spec v 0) as [-> | Hv]; [reflexivity|].
  destruct (Z.ltb_spec 0 v), (Z.ltb_spec v 0); try reflexivity; lia.
Qed.

End InitFacts2.

Lemma generate_one_hypothesis_per_sequence_witness :
  length [{| tokens := [0%Z]; score := Fin (ln (1 / 4) / 1);
             positional_scores := [Fin (ln (1 / 4))];
             knn_probs := None |}]
  = length (target one_token).
Proof.
  apply (generate_one_hypothesis_per_sequence no_junk plain_scorer
           [uniform4; uniform4] one_token None).
  exact generate_plain_ensemble.
Defined.

Lemma init_coef_extra_embed_wins_witness :
  Some pair_coef = Some pair_coef.
Proof.
  apply (init_coef_extra_embed_wins
           (fun _ => Ok []) (fun _ => Ok []) (fun _ _ => Ok pair_coef)
           {| pseudo_vocab_ratio := 2;
              load_centroid_distribution := None;
              num_extra_embed_file :=
                Some (String.String Ascii.Space String.EmptyString);
              args_lmbda := 0 |}
           (String.String Ascii.Space String.EmptyString)
           pair_coef (Some pair_coef));
    reflexivity.
Defined.

(** ** The attention maps *)

Section AttentionFacts.

Lemma attn_loop_skips (avg : option tensor3) (es : list dec_extra) :
  Forall (fun e => forall t, attn_of e <> PTensor t) es ->
  attn_loop avg es = Ok avg.
Proof.
  induction 1 as [|e es He _ IH]; [reflexivity|].
  cbn [attn_loop]. unfold attn_step.
  destruct (attn_of e) as [t| |]; [now contradiction (He t)| |];
    cbn [bind]; exact IH.
Qed.

(** X23.  The summed attention is divided by the number of models, not
    by the number of models that returned an attention tensor: when only
    the first of several models has one, the averaged attention is that
    tensor divided by the size of the ensemble. *)
Theorem attention_divided_by_ensemble_size (e0 : dec_extra)
    (rest : list dec_extra) (A : tensor3)
    (Hfirst : attn_of e0 = PTensor A)
    (Hrest : Forall (fun e => forall t, attn_of e <> PTensor t) rest)
    (Hmany : rest <> []) :
  avg_attention (e0 :: rest)
  = Ok (Some (map (map (map (fun x =>
                fdiv x (Fin (INR (length (e0 :: rest))))))) A)).
Proof.
  unfold avg_attention. cbn [attn_loop]. unfold attn_step.
  rewrite Hfirst. cbn [bind]. rewrite attn_loop_skips by assumption.
  cbn [bind].
  replace (1 <? length (e0 :: rest)) with true; [reflexivity|].
  symmetry. apply Nat.ltb_lt. destruct rest; [congruence | simpl; lia].
Qed.

Lemma attention_divided_by_ensemble_size_witness :
  avg_attention [Plain (PTensor [[[Fin 1]]]); Dict PNone]
  = Ok (Some [[[fdiv (Fin 1) (Fin (INR 2))]]]).
Proof.
  apply (attention_divided_by_ensemble_size (Plain (PTensor [[[Fin 1]]]))
           [Dict PNone] [[[Fin 1]]]).
  - reflexivity.
  - repeat constructor. discriminate.
  - discriminate.
Defined.

End AttentionFacts.

(** ** The constructor and the single-shot path *)

Section UnlimitedBatch.

Open Scope Z_scope.

Variable one_hot : Z -> result (list row).
Variable load_npz : String.string -> result (list row).
Variable extra_embed : Z -> String.string -> result (list row).

(** Past the assertion the constructor reads [args] and builds the
    projection matrix. *)
Lemma init_after_assertion (tgt_pad v : Z) (ao : option args) :
  0 <= v ->
  exists sb,
    Z.pos sb = (if v =? 0 then sys_maxsize else v)
    /\ init one_hot load_npz extra_embed tgt_pad (Some v) ao
       = match ao with
         | None => Raise AttributeError
         | Some a =>
             c <- init_coef one_hot load_npz extra_embed a ;;
             Ok {| pad := tgt_pad; softmax_batch := sb; coef := c;
                   lmbda := args_lmbda a |}
         end.
Proof.
  intros Hv.
  destruct (init_softmax_batch_ok (Some v)) as [sb [Hinit Hsb]].
  { unfold softmax_batch_or_maxsize. destruct (Z.eqb_spec v 0); [reflexivity | lia]. }
  exists sb. split; [exact Hsb|].
  unfold init. now rewrite Hinit.
Qed.

(** C10.  A scorer constructed with [softmax_batch = 0] got past the
    assertion and holds [sys.maxsize]; every batch it scores (whose
    batch x seq product, like any tensor size, is below [sys.maxsize])
    takes the single-shot path; and the assertion of the constructor
    rejects the negative values and no others. *)
Theorem softmax_batch_zero_unlimited (tgt_pad : Z) (a : args) (sc : scorer)
    (Hinit : init one_hot load_npz extra_embed tgt_pad (Some 0) (Some a)
             = Ok sc) :
  Z.pos (softmax_batch sc) = sys_maxsize
  /\ (forall junk n m tgt,
        Z.of_nat (length (decoder_out m) * shape_tsz (decoder_out m))
        < sys_maxsize ->
        batch_for_softmax (softmax_batch sc) (decoder_out m) tgt
        = Ok [(decoder_out m, tgt, true)]
        /\ score_model junk sc n m tgt
           = (cp <- curr_prob sc n m (decoder_out m) ;;
              gather_target_probs cp tgt))
  /\ (forall v p ao,
        v < 0 ->
        init one_hot load_npz extra_embed p (Some v) ao
        = Raise AssertionError)
  /\ (forall v p ao,
        0 <= v ->
        exists sb,
          Z.pos sb = (if v =? 0 then sys_maxsize else v)
          /\ init one_hot load_npz extra_embed p (Some v) ao
             = match ao with
               | None => Raise AttributeError
               | Some a' =>
                   c <- init_coef one_hot load_npz extra_embed a' ;;
                   Ok {| pad := p; softmax_batch := sb; coef := c;
                         lmbda := args_lmbda a' |}
               end).
Proof.
  assert (Hsb : Z.pos (softmax_batch sc) = sys_maxsize).
  { destruct (init_after_assertion tgt_pad 0 (Some a) ltac:(lia))
      as [sb [Hsb E]].
    rewrite E in Hinit.
    destruct (init_coef one_hot load_npz extra_embed a) as [c|e];
      [|discriminate].
    cbn [bind] in Hinit. inversion Hinit; subst sc. exact Hsb. }
  split; [exact Hsb|]. split; [|split].
  - intros junk n m tgt Hsize.
    assert (Hb : batch_for_softmax (softmax_batch sc) (decoder_out m) tgt
                 = Ok [(decoder_out m, tgt, true)]).
    { unfold batch_for_softmax. rewrite Hsb.
      now rewrite (proj2 (Z.ltb_lt _ _) Hsize). }
    split; [exact Hb|].
    unfold score_model. rewrite Hb. cbn [bind score_items score_item].
    destruct (curr_prob sc n m (decoder_out m)) as [cp|e]; [|reflexivity].
    cbn [bind]. now destruct (gather_target_probs cp tgt).
  - intros v p ao Hv. unfold init.
    now rewrite (proj2 (init_rejects_iff_negative v) Hv).
  - intros v p ao Hv. now apply init_after_assertion.
Qed.

End UnlimitedBatch.

Lemma softmax_batch_zero_unlimited_witness :
  exists sc,
    init (fun _ => Ok []) (fun _ => Ok []) (fun _ _ => Ok []) 1 (Some 0%Z)
      (Some plain_args) = Ok sc
    /\ Z.pos (softmax_batch sc) = sys_maxsize
    /\ score_model no_junk sc 1 uniform4_pair [[0]; [1]]%Z
       = (cp <- curr_prob sc 1 uniform4_pair (decoder_out uniform4_pair) ;;
          gather_target_probs cp [[0]; [1]]%Z).
Proof.
  eexists. split; [reflexivity|].
  destruct (softmax_batch_zero_unlimited
              (fun _ => Ok []) (fun _ => Ok []) (fun _ _ => Ok []) 1
              plain_args _ eq_refl) as [Hsb [Hpath _]].
  split; [exact Hsb|].
  apply (Hpath no_junk 1%nat uniform4_pair [[0]; [1]]%Z). reflexivity.
Defined.

(** ** The scores of generate and the start offsets *)

Section OffsetFacts.



Variable junk : nat -> fval.
Variable sc : scorer.
Variable n : nat.
Variable kwargs : option knn_dstore.
Variable tgt : ids2.




End OffsetFacts.

Section GenerateOffsets.






End GenerateOffsets.

